(** * Patch algebra of debtags-heuristics (patches.py, checks.py)

    A shallow embedding of the [Patch] and [PatchSet] classes of
    [patches.py] and of [HasEquivsTagcheck] of [checks.py], with the
    properties of the specification stated and proved over it.

    Conventions of the embedding:
    - a Python 2 [str] is a [string] (a sequence of bytes);
    - a Python [set] of tags is a [gset string]; sets are compared and
      stored by value: the two sets of a patch are distinct objects,
      and no patch shares a set with the tag database it is applied
      to (no caller in the repository builds such a patch);
    - a [dict] is a [gmap]; iteration over a dict or a set is a fold,
      and every property proved below holds independently of the
      order of the fold;
    - a raised exception is the [Raise] branch of [result]. *)

From stdpp Require Import gmap strings list fin_maps sorting.
From Stdlib Require Import Ascii.

#[local] Set Warnings "-clear-no-such-hyp".

(** ** Exceptions *)

Inductive exn : Type :=
| ValueError (msg : string)
| IndexError (msg : string).

Inductive result (A : Type) : Type :=
| Ok (a : A)
| Raise (e : exn).
Arguments Ok {A} a.
Arguments Raise {A} e.

#[global] Instance result_bind : MBind result := λ A B k r,
  match r with
  | Ok a => k a
  | Raise e => Raise e
  end.

(** A [for] loop whose body may raise: the first exception stops it. *)
Fixpoint for_each {A S} (body : S → A → result S) (xs : list A) (s : S)
  : result S :=
  match xs with
  | [] => Ok s
  | x :: xs' => s' ← body s x; for_each body xs' s'
  end.

(** ** Python string methods used by the code *)

Module Str.

(** [s[n:]] *)
Fixpoint drop (n : nat) (s : string) : string :=
  match n, s with
  | O, _ => s
  | S _, EmptyString => EmptyString
  | S n', String _ s' => drop n' s'
  end.

(** [s.split(sep)] for a non-empty [sep]: the pieces between the
    leftmost non-overlapping occurrences of [sep].  [skip] counts the
    characters of the occurrence being stepped over. *)
Fixpoint split_go (sep : string) (skip : nat) (s : string) : list string :=
  match s with
  | EmptyString => [EmptyString]
  | String c s' =>
      match skip with
      | S k => split_go sep k s'
      | O =>
          if String.prefix sep s
          then EmptyString :: split_go sep (String.length sep - 1) s'
          else match split_go sep 0 s' with
               | piece :: rest => String c piece :: rest
               | [] => [String c EmptyString]
               end
      end
  end.

Definition split (sep s : string) : list string := split_go sep 0 s.

(** [s.split(sep, 1)]: at most one cut, at the first occurrence. *)
Fixpoint split1 (sep s : string) : list string :=
  match s with
  | EmptyString => [EmptyString]
  | String c s' =>
      if String.prefix sep s
      then [EmptyString; drop (String.length sep) s]
      else match split1 sep s' with
           | piece :: rest => String c piece :: rest
           | [] => [String c EmptyString]
           end
  end.

(** [s.strip()]: whitespace is space, tab, newline, return, VT, FF. *)
Fixpoint lstrip (s : string) : string :=
  match s with
  | EmptyString => EmptyString
  | String c s' => if Ascii.is_space c then lstrip s' else s
  end.

Fixpoint rstrip (s : string) : string :=
  match s with
  | EmptyString => EmptyString
  | String c s' =>
      match rstrip s' with
      | EmptyString => if Ascii.is_space c then EmptyString
                       else String c EmptyString
      | r => String c r
      end
  end.

Definition strip (s : string) : string := rstrip (lstrip s).

(** [sep.join(bits)] *)
Definition join (sep : string) (bits : list string) : string :=
  String.concat sep bits.

(** [sorted(s)] of a set of strings: ascending in the byte-wise
    lexicographic order of Python 2 [str]. *)
Definition sorted (s : gset string) : list string :=
  merge_sort String.le (elements s).

(** [sep in s] for a non-empty [sep]. *)
Fixpoint contains (sep s : string) : bool :=
  match s with
  | EmptyString => false
  | String _ s' => String.prefix sep s || contains sep s'
  end.

End Str.

(** ** The regular expression [^[^: ,]+:?$] of [PatchSet.read_fd] *)

Module Re.

Definition newline : ascii := "010"%char.

(** The class [[^: ,]]. *)
Definition plain (c : ascii) : bool :=
  negb (Ascii.eqb c ":" || Ascii.eqb c " " || Ascii.eqb c ",")%char.

(** What may follow [[^: ,]+]: an optional colon, then [$], which is
    the end of the text or the position before a final newline. *)
Definition tail_ok (s : string) : bool :=
  match s with
  | EmptyString => true
  | String c EmptyString => Ascii.eqb c ":" || Ascii.eqb c newline
  | String c (String d EmptyString) => Ascii.eqb c ":" && Ascii.eqb d newline
  | _ => false
  end%char.

(** [after_plain s]: one or more characters of the class have been
    read and [s] remains. *)
Fixpoint after_plain (s : string) : bool :=
  tail_ok s ||
  match s with
  | EmptyString => false
  | String c s' => plain c && after_plain s'
  end.

(** [re.match(r"^[^: ,]+:?$", s)] is not [None]. *)
Definition empty_patch_line (s : string) : bool :=
  match s with
  | EmptyString => false
  | String c s' => plain c && after_plain s'
  end.

End Re.

(** ** The tag database

    [debian.debtags.DB] of python-debian: [db] maps a package to its
    tags and [rdb] maps a tag to the packages that carry it.  The two
    attributes are what [Patch.apply] reads and writes. *)

Module TagDB.

Record t : Type :=
  mk { db : gmap string (gset string); rdb : gmap string (gset string) }.

(** The value [m.setdefault(k, set())] returns. *)
Definition setdefault (k : string) (m : gmap string (gset string))
  : gset string :=
  default ∅ (m !! k).

(** The tags package [pkg] carries in the forward index, and the
    packages listed under tag [tag] in the reverse index. *)
Definition tags_of (tagdb : t) (pkg : string) : gset string :=
  setdefault pkg (db tagdb).



(** [DB.has_package] and [DB.tags_of_package] as python-debian
    defines them ([pkg in self.db], and [self.db[pkg]] or an empty
    set); [PatchSet.simplified] below takes the two methods as
    parameters, these are the instances used in the examples. *)
Definition has_package (tagdb : t) (pkg : string) : bool :=
  bool_decide (pkg ∈ dom (db tagdb)).

Definition tags_of_package (tagdb : t) (pkg : string) : gset string :=
  tags_of tagdb pkg.

End TagDB.

(** ** class Patch *)

Module Patch.

Record t : Type := mk { added : gset string; removed : gset string }.

(** [Patch()] *)
Definition new : t := mk ∅ ∅.

(** [Patch.empty] *)
Definition empty (self : t) : bool :=
  negb (negb (bool_decide (added self = ∅))
        || negb (bool_decide (removed self = ∅))).

(** One round of the loop of [Patch.parse].  [t[1:]] never is [None],
    so that test of the source never fires; [t[0]] raises on the
    empty token. *)
Definition parse_token (blacklist_tags : list string) (self : t)
    (tok : string) : result t :=
  let tag := Str.drop 1 tok in
  if bool_decide (tag ∈ blacklist_tags) then Ok self
  else match tok with
       | EmptyString => Raise (IndexError "string index out of range")
       | String c _ =>
           if Ascii.eqb c "+"%char
           then Ok (mk ({[tag]} ∪ added self) (removed self))
           else if Ascii.eqb c "-"%char
           then Ok (mk (added self) ({[tag]} ∪ removed self))
           else Ok self
       end.

(** [Patch.parse] *)
Definition parse (text : string) (blacklist_tags : list string) (self : t)
  : result t :=
  for_each (parse_token blacklist_tags) (Str.split ", " text) self.

(** [Patch(text, blacklist_tags)] *)
Definition init (text : option string) (blacklist_tags : list string)
  : result t :=
  match text with
  | None => Ok new
  | Some text => parse text blacklist_tags new
  end.

(** The two statements of [Patch.apply] that rewrite the tag set. *)
Definition apply_tags (self : t) (ts : gset string) : gset string :=
  let ts := ts ∖ removed self in
  ts ∪ added self.

(** [tagdb.rdb.setdefault(t, set()).discard(pkg)] and
    [tagdb.rdb.setdefault(t, set()).add(pkg)] *)
Definition rdb_discard (pkg t : string) (rdb : gmap string (gset string))
  : gmap string (gset string) :=
  <[t := TagDB.setdefault t rdb ∖ {[pkg]}]> rdb.

Definition rdb_add (pkg t : string) (rdb : gmap string (gset string))
  : gmap string (gset string) :=
  <[t := TagDB.setdefault t rdb ∪ {[pkg]}]> rdb.

(** [Patch.apply] *)
Definition apply (self : t) (pkg : string) (tagdb : TagDB.t) : TagDB.t :=
  let ts := apply_tags self (TagDB.setdefault pkg (TagDB.db tagdb)) in
  let db := <[pkg := ts]> (TagDB.db tagdb) in
  let rdb := set_fold (rdb_discard pkg) (TagDB.rdb tagdb) (removed self) in
  let rdb := set_fold (rdb_add pkg) rdb (added self) in
  TagDB.mk db rdb.

(** [Patch.write]: the text written to [fd]. *)
Definition write (self : t) : string :=
  let bits := (λ t, "-" +:+ t) <$> Str.sorted (removed self) in
  let bits := bits ++ ((λ t, "+" +:+ t) <$> Str.sorted (added self)) in
  Str.join ", " bits.

(** [Patch.__str__] *)
Definition str (self : t) : string :=
  Str.join ", " (((λ t, "+" +:+ t) <$> Str.sorted (added self))
                 ++ ((λ t, "-" +:+ t) <$> Str.sorted (removed self))).

(** [Patch.add] *)
Definition add (added' removed' : gset string) (self : t) : t :=
  let a := added self ∪ added' in
  let r := removed self ∖ added' in
  let r := r ∪ removed' in
  let a := a ∖ removed' in
  mk a r.

(** The truth value of the optional whitelist: [None] and the empty
    set do not filter. *)
Definition truthy (tag_whitelist : option (gset string)) : bool :=
  match tag_whitelist with
  | None => false
  | Some wl => negb (bool_decide (wl = ∅))
  end.

(** The outcome of [Patch.simplified]: [None], the patch itself (the
    same object), or a fresh patch. *)
Inductive outcome : Type :=
| Nothing
| Self
| Fresh (res : t).

Definition simplified_outcome (self : t) (tags : gset string)
    (tag_whitelist : option (gset string)) : outcome :=
  let new_add := added self ∖ tags in
  let new_del := removed self ∩ tags in
  let new_add := if truthy tag_whitelist
                 then new_add ∩ default ∅ tag_whitelist else new_add in
  let new_del := if truthy tag_whitelist
                 then new_del ∩ default ∅ tag_whitelist else new_del in
  if bool_decide (new_add = ∅) && bool_decide (new_del = ∅) then Nothing
  else if bool_decide (new_add = added self)
          && bool_decide (new_del = removed self) then Self
  else Fresh (mk new_add new_del).

(** [Patch.simplified], by value. *)
Definition simplified (self : t) (tags : gset string)
    (tag_whitelist : option (gset string)) : option t :=
  match simplified_outcome self tags tag_whitelist with
  | Nothing => None
  | Self => Some self
  | Fresh res => Some res
  end.

(** [Patch.diff] *)
Definition diff (self patch : t) : t :=
  let a := removed self ∖ removed patch in
  let a := a ∪ (added patch ∖ added self) in
  let r := added self ∖ added patch in
  let r := r ∪ (removed patch ∖ removed self) in
  mk a r.

End Patch.

(** ** class PatchSet (a dict from package to Patch) *)

Module PatchSet.

Abbreviation t := (gmap string Patch.t).

(** [PatchSet.empty] *)
Definition empty (self : t) : bool :=
  map_fold (λ _ p acc, acc && Patch.empty p) true self.

(** One round of the loop of [PatchSet.read_fd]. *)
Definition read_line (blacklist_tags : list string) (self : t)
    (line : string) : result t :=
  let line := Str.strip line in
  if bool_decide (line = "") then Ok self
  else match Str.split1 ": " line with
       | [pkg; tags] =>
           match self !! pkg with
           | Some patch =>
               patch' ← Patch.parse tags blacklist_tags patch;
               Ok (<[pkg := patch']> self)
           | None =>
               patch ← Patch.init (Some tags) blacklist_tags;
               if Patch.empty patch then Ok self
               else Ok (<[pkg := patch]> self)
           end
       | _ =>
           if Re.empty_patch_line line then Ok self
           else Raise (ValueError ("Cannot parse line '" +:+ line +:+ "'"))
       end.

(** [PatchSet.read_fd]; [fd] is the sequence of lines of the file. *)
Definition read_fd (fd : list string) (blacklist_tags : list string)
    (self : t) : result t :=
  for_each (read_line blacklist_tags) fd self.

(** [PatchSet(fd=fd, blacklist_tags=...)] *)
Definition init (fd : list string) (blacklist_tags : list string)
  : result t :=
  read_fd fd blacklist_tags ∅.

(** [PatchSet.apply_to] *)
Definition apply_to (self : t) (tagdb : TagDB.t) : TagDB.t :=
  map_fold (λ pkg patch acc, Patch.apply patch pkg acc) tagdb self.

(** [PatchSet.add] *)
Definition add (pkg : string) (added removed : gset string) (self : t)
  : t :=
  match self !! pkg with
  | Some patch => <[pkg := Patch.add added removed patch]> self
  | None =>
      let patch := Patch.mk added removed in
      if Patch.empty patch then self else <[pkg := patch]> self
  end.


Section Simplified.
(** The two methods of the tag database [PatchSet.simplified]
    calls. *)
Context {DB : Type}.
Variable has_package : DB → string → bool.
Variable tags_of_package : DB → string → gset string.

(** One round of the loop of [PatchSet.simplified]. *)
Definition simplified_step (tagdb : DB)
    (tag_whitelist : option (gset string))
    (pkg : string) (patch : Patch.t) (res : t) : t :=
  if negb (has_package tagdb pkg) then res
  else
    let tags := tags_of_package tagdb pkg in
    match Patch.simplified patch tags tag_whitelist with
    | Some new_patch => <[pkg := new_patch]> res
    | None => res
    end.

(** [PatchSet.simplified] *)
Definition simplified (self : t) (tagdb : DB)
    (tag_whitelist : option (gset string)) : t :=
  map_fold (simplified_step tagdb tag_whitelist) ∅ self.
End Simplified.

(** The two loops of [PatchSet.diff]. *)
Definition diff_step (patchset : t) (pkg : string) (patch : Patch.t)
    (res : t) : t :=
  match patchset !! pkg with
  | None => add pkg (Patch.removed patch) (Patch.added patch) res
  | Some opatch =>
      let diff := Patch.diff patch opatch in
      add pkg (Patch.added diff) (Patch.removed diff) res
  end.

Definition diff_rest (self : t) (pkg : string) (patch : Patch.t)
    (res : t) : t :=
  match self !! pkg with
  | None => add pkg (Patch.added patch) (Patch.removed patch) res
  | Some _ => res
  end.

(** [PatchSet.diff] *)
Definition diff (self patchset : t) : t :=
  let res := map_fold (diff_step patchset) ∅ self in
  map_fold (diff_rest self) res patchset.

(** [PatchSet.summary_tags], as a set. *)
Definition summary_tags (self : t) : gset string :=
  map_fold (λ _ p tags, tags ∪ Patch.added p ∪ Patch.removed p) ∅ self.

(** What [PatchSet.write_fd] writes for one entry: the name, [": "],
    the patch, a newline. *)
Definition write_entry (pkg : string) (patch : Patch.t) : string :=
  pkg +:+ ": " +:+ Patch.write patch +:+ String Re.newline "".

(** [PatchSet.write_fd] on the items of the dict in the order [items]
    of its iteration: the lines written to [fd]. *)
Definition write_items (items : list (string * Patch.t)) : list string :=
  (λ item, write_entry item.1 item.2) <$> items.

Definition write_fd (self : t) : list string :=
  write_items (map_to_list self).

End PatchSet.

(** ** class HasEquivsTagcheck *)

Module HasEquivsTagcheck.

Definition ID : nat := 6.

(** [check_tags]: the dicts the generator yields, in order. *)
Definition check_tags (tags : gset string) : list (gmap string string) :=
  let has_role := bool_decide ("role::devel-lib" ∈ tags) in
  let has_devlib := bool_decide ("devel::library" ∈ tags) in
  if has_role && negb has_devlib
  then [ {[ "has" := "role::devel-lib"; "miss" := "devel::library" ]} ]
  else if has_devlib && negb has_role
  then [ {[ "has" := "devel::library"; "miss" := "role::devel-lib" ]} ]
  else [].

End HasEquivsTagcheck.

(** ** The other tag checks of checks.py

    A check reads the tag collection in two ways: it iterates over it
    and it tests membership with [in].  The collection is given here
    as the sequence [tags] of its elements in iteration order, so that
    what depends on that order is visible.  The data of a violation
    is a dict whose values are strings or lists of strings. *)

Inductive value : Type :=
| VStr (s : string)
| VList (l : list string).

Abbreviation data := (gmap string value).

Module HasRoleTagcheck.

Definition ID : nat := 1.

(** [check_tags]: one empty dict when no tag starts with [role::]. *)
Definition check_tags (tags : list string) : list data :=
  let found := existsb (String.prefix "role::") tags in
  if negb found then [∅] else [].

End HasRoleTagcheck.

Module HasUIToolkitTagcheck.

Definition ID : nat := 2.

(** The first of [interface::x11], [interface::3d] that is in
    [tags]. *)
Definition has_iface (tags : list string) : option string :=
  List.find (λ t, bool_decide (t ∈ tags)) ["interface::x11"; "interface::3d"].

Definition check_tags (tags : list string) : list data :=
  if existsb (String.prefix "uitoolkit::") tags then []
  else match has_iface tags with
       | Some t => [ {[ "found" := VStr t ]} ]
       | None => []
       end.

End HasUIToolkitTagcheck.

Module IsReviewedTagcheck.

Definition ID : nat := 3.

Definition check_tags (tags : list string) : list data :=
  if bool_decide ("special::not-yet-tagged" ∈ tags) then [∅] else [].

End IsReviewedTagcheck.

Module HasImplementedInTagcheck.

Definition ID : nat := 4.

Definition roles : list string :=
  ["program"; "devel-lib"; "plugin"; "shared-lib"; "source"].

(** [re_role.match(t)]: group 1 of
    [^role::(program|devel-lib|plugin|shared-lib|source)$] on [t],
    where [$] also matches before a final newline. *)
Definition re_role (t : string) : option string :=
  List.find (λ r, bool_decide (t = "role::" +:+ r)
                  || bool_decide (t = "role::" +:+ r +:+ String Re.newline ""))
            roles.

(** The loop over the tags: [None] when it returns from inside, else
    the value of [is_sw] after the last round. *)
Fixpoint scan (tags : list string) (is_sw : option string)
  : option (option string) :=
  match tags with
  | [] => Some is_sw
  | t :: tags' =>
      match re_role t with
      | Some role => scan tags' (Some role)
      | None =>
          if String.prefix "implemented-in::" t then None
          else scan tags' is_sw
      end
  end.

Definition check_tags (tags : list string) : list data :=
  match scan tags None with
  | Some (Some is_sw) => [ {[ "found" := VStr is_sw ]} ]
  | _ => []
  end.

End HasImplementedInTagcheck.

Module HasDevelLangTagcheck.

Definition ID : nat := 5.

Definition is_devlib (tags : list string) : option string :=
  List.find (λ t, bool_decide (t ∈ tags)) ["role::devel-lib"; "devel::library"].

Definition check_tags (tags : list string) : list data :=
  match is_devlib tags with
  | None => []
  | Some t =>
      if existsb (String.prefix "devel::lang:") tags then []
      else [ {[ "found" := VStr t ]} ]
  end.

End HasDevelLangTagcheck.

Module HasGameTagcheck.

Definition ID : nat := 7.

Definition check_tags (tags : list string) : list data :=
  if negb (bool_decide ("use::gameplaying" ∈ tags)) then []
  else if existsb (String.prefix "game::") tags then []
  else [∅].

End HasGameTagcheck.

Module DebugSymbolsTagcheck.

Definition ID : nat := 9.

Definition check_tags (tags : list string) : list data :=
  if negb (bool_decide ("role::debug-symbols" ∈ tags)) then []
  else
    let trigger :=
      existsb (λ t, negb (bool_decide
                            (t ∈ ["role::debug-symbols"; "role::dummy"])))
              tags in
    if trigger then [∅] else [].

End DebugSymbolsTagcheck.

Module ShlibsTagcheck.

Definition ID : nat := 10.

(** The tags the loop appends to [extras]. *)
Definition is_extra (t : string) : bool :=
  negb (bool_decide
          (t ∈ ["role::shared-lib"; "role::dummy"; "x11::library"]))
  && negb (String.prefix "implemented-in::" t).

Definition check_tags (tags : list string) : list data :=
  if negb (bool_decide ("role::shared-lib" ∈ tags)) then []
  else
    let extras := List.filter is_extra tags in
    match extras with
    | [] => []
    | _ => [ {[ "t" := VList extras ]} ]
    end.

End ShlibsTagcheck.

(** ** class CheckEngine *)

(** A tag checker class: its [ID], its [__name__] and its
    [check_tags].  IDs are the small non-negative integers that the
    classes of checks.py declare. *)
Record checker : Type :=
  mk_checker { ID : nat;
               class_name : string;
               check_tags : list string → list data }.

Module CheckEngine.





(** [CheckEngine.run]: the pairs it yields, in order. *)
Definition run (checks : list checker) (tags : list string)
  : list (checker * data) :=
  c ← checks; res ← check_tags c tags; [(c, res)].

(** The registrations that importing checks.py performs, in order. *)
Definition module_checkers : list checker :=
  [ mk_checker HasRoleTagcheck.ID "HasRoleTagcheck"
      HasRoleTagcheck.check_tags;
    mk_checker HasUIToolkitTagcheck.ID "HasUIToolkitTagcheck"
      HasUIToolkitTagcheck.check_tags;
    mk_checker IsReviewedTagcheck.ID "IsReviewedTagcheck"
      IsReviewedTagcheck.check_tags;
    mk_checker HasImplementedInTagcheck.ID "HasImplementedInTagcheck"
      HasImplementedInTagcheck.check_tags;
    mk_checker HasDevelLangTagcheck.ID "HasDevelLangTagcheck"
      HasDevelLangTagcheck.check_tags;
    mk_checker HasEquivsTagcheck.ID "HasEquivsTagcheck"
      (λ tags : list string,
         (λ d : gmap string string, VStr <$> d)
         <$> HasEquivsTagcheck.check_tags (list_to_set tags));
    mk_checker HasGameTagcheck.ID "HasGameTagcheck"
      HasGameTagcheck.check_tags;
    mk_checker DebugSymbolsTagcheck.ID "DebugSymbolsTagcheck"
      DebugSymbolsTagcheck.check_tags;
    mk_checker ShlibsTagcheck.ID "ShlibsTagcheck"
      ShlibsTagcheck.check_tags ].


(** [CheckEngine.list], and the [checks] that [refresh] builds. *)
Definition list (TAGCHECKERS : Datatypes.list (option checker))
  : Datatypes.list checker :=
  omap id TAGCHECKERS.

End CheckEngine.

(** ** class Autodebtag (autotag.py) *)

Module Autodebtag.

(** What a rule's [make_patch] yields: package, added tags, removed
    tags. *)
Abbreviation triple := (string * gset string * gset string)%type.

(** The truth value of a set of tags. *)
Definition truthy (s : gset string) : bool := negb (bool_decide (s = ∅)).

(** One round of the inner loop of [make_patches]. *)
Definition merge_triple (pkg_whitelist : gset string) (patchset : PatchSet.t)
    (t : triple) : PatchSet.t :=
  let '(pkg, added, removed) := t in
  if negb (bool_decide (pkg ∈ pkg_whitelist)) then patchset
  else if truthy added || truthy removed
       then PatchSet.add pkg added removed patchset
       else patchset.

(** [Autodebtag.make_patches]; [rules] holds, for every rule of
    [self.rules] in order, the sequence its [make_patch] yields. *)
Definition make_patches (rules : list (list triple))
    (pkg_whitelist : gset string) : PatchSet.t :=
  foldl (λ patchset r, foldl (merge_triple pkg_whitelist) patchset r)
        ∅ rules.

End Autodebtag.

(** ** Vocabulary of the statements *)

(** The added and the removed set of a patch share no tag. *)
Definition disjoint_patch (p : Patch.t) : Prop :=
  Patch.added p ## Patch.removed p.



(** [t[0]] of a token, when there is one. *)
Definition token_sign (tok : string) : option ascii :=
  match tok with
  | EmptyString => None
  | String c _ => Some c
  end.

(** The tags of the tokens that carry the sign [sign] and are not
    blacklisted. *)
Definition signed_tags (sign : ascii) (blacklist_tags toks : list string)
  : gset string :=
  list_to_set
    (Str.drop 1 <$>
     filter (λ tok, token_sign tok = Some sign
                    ∧ Str.drop 1 tok ∉ blacklist_tags) toks).

(** The patch [Patch.parse] builds on [self] from the tokens. *)
Definition parsed (blacklist_tags toks : list string) (self : Patch.t)
  : Patch.t :=
  Patch.mk (signed_tags "+" blacklist_tags toks ∪ Patch.added self)
           (signed_tags "-" blacklist_tags toks ∪ Patch.removed self).

(** An empty token that the blacklist does not cover. *)
Definition has_bad_token (blacklist_tags toks : list string) : Prop :=
  EmptyString ∈ toks ∧ EmptyString ∉ blacklist_tags.

(** The package and the tag list of a line that holds the separator
    [": "]. *)
Definition entry_of (line : string) : option (string * string) :=
  match Str.split1 ": " (Str.strip line) with
  | [pkg; tags] => Some (pkg, tags)
  | _ => None
  end.

(** A line that is not blank, holds no separator and is not a bare
    package name. *)
Definition malformed (line : string) : Prop :=
  Str.strip line ≠ EmptyString
  ∧ entry_of line = None
  ∧ Re.empty_patch_line (Str.strip line) = false.

(** What [PatchSet.read_fd] does to the patch set on a line for
    package [pkg] whose tokens are [toks]. *)
Definition with_entry (bl toks : list string) (pkg : string)
    (S : PatchSet.t) : PatchSet.t :=
  match S !! pkg with
  | Some p => <[pkg := parsed bl toks p]> S
  | None => if Patch.empty (parsed bl toks Patch.new) then S
            else <[pkg := parsed bl toks Patch.new]> S
  end.

(** A patch is effective on a tag set when every tag it adds is
    absent from the set and every tag it removes is present. *)
Definition effective (p : Patch.t) (ts : gset string) : Prop :=
  Patch.added p ## ts ∧ Patch.removed p ⊆ ts.

(** The reverse of a patch, as [PatchSet.diff] builds it for a package
    that only the first patch set changes. *)
Definition reverse (p : Patch.t) : Patch.t :=
  Patch.mk (Patch.removed p) (Patch.added p).

(** The entry [PatchSet.add] creates for a package that has none. *)
Definition new_entry (p : Patch.t) : option Patch.t :=
  if Patch.empty p then None else Some p.

(** What [PatchSet.add] makes of the entry of the package it is
    called for. *)
Definition add_entry (a r : gset string) (entry : option Patch.t)
  : option Patch.t :=
  match entry with
  | Some p => Some (Patch.add a r p)
  | None => new_entry (Patch.mk a r)
  end.


(** The tags that the triples for package [pkg] add. *)
Definition added_for (pkg : string) (triples : list Autodebtag.triple)
  : gset string :=
  foldr (λ (t : Autodebtag.triple) acc,
           if decide (t.1.1 = pkg) then t.1.2 ∪ acc else acc)
        ∅ triples.

(** Some character of the text is whitespace. *)
Fixpoint has_space (s : string) : bool :=
  match s with
  | EmptyString => false
  | String c s' => Ascii.is_space c || has_space s'
  end.

(** The text is empty or its last character is not whitespace. *)
Fixpoint ends_clean (s : string) : bool :=
  match s with
  | EmptyString => true
  | String c EmptyString => negb (Ascii.is_space c)
  | String _ s' => ends_clean s'
  end.

(** An entry that is read back as it was written: the patch is not
    empty, and neither the package name nor a tag holds whitespace. *)
Definition writable (pkg : string) (p : Patch.t) : Prop :=
  has_space pkg = false
  ∧ Patch.empty p = false
  ∧ ∀ tag, tag ∈ Patch.added p ∪ Patch.removed p → has_space tag = false.

(** ** Proof steps used more than once *)

(** Closed decidable facts are settled by evaluation. *)
Ltac by_decide := apply (bool_decide_unpack _); vm_compute; exact I.


(** * Properties *)

(** ** Membership in the sets a patch builds *)

Lemma elem_of_apply_tags (p : Patch.t) (ts : gset string) (x : string) :
  x ∈ Patch.apply_tags p ts ↔
  (x ∈ ts ∧ x ∉ Patch.removed p) ∨ x ∈ Patch.added p.
Proof. unfold Patch.apply_tags. set_solver. Qed.

Lemma elem_of_diff_added (A B : Patch.t) (x : string) :
  x ∈ Patch.added (Patch.diff A B) ↔
  (x ∈ Patch.removed A ∧ x ∉ Patch.removed B)
  ∨ (x ∈ Patch.added B ∧ x ∉ Patch.added A).
Proof. unfold Patch.diff; simpl. set_solver. Qed.

Lemma elem_of_diff_removed (A B : Patch.t) (x : string) :
  x ∈ Patch.removed (Patch.diff A B) ↔
  (x ∈ Patch.added A ∧ x ∉ Patch.added B)
  ∨ (x ∈ Patch.removed B ∧ x ∉ Patch.removed A).
Proof. unfold Patch.diff; simpl. set_solver. Qed.

(** ** Patch.apply on the two indices *)


Lemma tags_of_apply (p : Patch.t) (pkg pkg' : string) (tagdb : TagDB.t) :
  TagDB.tags_of (Patch.apply p pkg tagdb) pkg' =
  if decide (pkg = pkg')
  then Patch.apply_tags p (TagDB.tags_of tagdb pkg)
  else TagDB.tags_of tagdb pkg'.
Proof.
  unfold TagDB.tags_of, TagDB.setdefault, Patch.apply; simpl.
  rewrite lookup_insert. by destruct (decide (pkg = pkg')).
Qed.







(** ** Difference of two patches *)






(** ** Patch.parse, token by token *)

Lemma signed_tags_nil (sign : ascii) (bl : list string) :
  signed_tags sign bl [] = ∅.
Proof. reflexivity. Qed.

Lemma signed_tags_cons (sign : ascii) (bl : list string) (tok : string)
    (toks : list string) :
  signed_tags sign bl (tok :: toks) =
  if decide (token_sign tok = Some sign ∧ Str.drop 1 tok ∉ bl)
  then {[Str.drop 1 tok]} ∪ signed_tags sign bl toks
  else signed_tags sign bl toks.
Proof.
  unfold signed_tags. rewrite filter_cons.
  destruct (decide (token_sign tok = Some sign ∧ Str.drop 1 tok ∉ bl));
    reflexivity.
Qed.

(** What one token does to the patch. *)
Lemma parse_token_result (bl : list string) (p : Patch.t) (tok : string) :
  Patch.parse_token bl p tok =
  if decide (has_bad_token bl [tok])
  then Raise (IndexError "string index out of range")
  else Ok (parsed bl [tok] p).
Proof.
  unfold Patch.parse_token, parsed, has_bad_token.
  rewrite !signed_tags_cons, !signed_tags_nil.
  destruct p as [a r]. cbn [Patch.added Patch.removed].
  destruct tok as [|c tag]; cbn [Str.drop token_sign].
  - case_bool_decide as Hbl; repeat case_decide;
      try (exfalso; set_solver); try done.
    f_equal. f_equal; set_solver.
  - destruct (Ascii.eqb_spec c "+") as [->|Hplus];
      [|destruct (Ascii.eqb_spec c "-") as [->|Hminus]];
      case_bool_decide as Hbl; repeat case_decide;
      try (exfalso; set_solver); try (exfalso; naive_solver); try done;
      f_equal; f_equal; set_solver.
Qed.

Lemma parsed_cons (bl : list string) (tok : string) (toks : list string)
    (p : Patch.t) :
  parsed bl toks (parsed bl [tok] p) = parsed bl (tok :: toks) p.
Proof.
  unfold parsed; simpl.
  rewrite !(signed_tags_cons _ bl tok toks), !(signed_tags_cons _ bl tok []).
  rewrite !signed_tags_nil.
  f_equal; case_decide; set_solver.
Qed.

(** The loop of [Patch.parse]: it raises exactly when some token is
    empty and the blacklist does not hold the empty tag; otherwise it
    collects the signed tags. *)
Lemma parse_tokens_result (bl toks : list string) (p : Patch.t) :
  for_each (Patch.parse_token bl) toks p =
  if decide (has_bad_token bl toks)
  then Raise (IndexError "string index out of range")
  else Ok (parsed bl toks p).
Proof.
  revert p. induction toks as [|tok toks IH]; intros p.
  - cbn [for_each]. rewrite decide_False by (intros [Hin _]; set_solver).
    unfold parsed. rewrite !signed_tags_nil. destruct p as [a r]; simpl.
    f_equal. f_equal; set_solver.
  - cbn [for_each]. rewrite parse_token_result.
    destruct (decide (has_bad_token bl [tok])) as [[Hin Hbl]|Hok].
    + apply list_elem_of_singleton in Hin as <-.
      rewrite decide_True by (split; [set_solver|done]). done.
    + cbn [mbind result_bind]. rewrite IH, parsed_cons.
      destruct (decide (has_bad_token bl toks)) as [[Hin Hbl]|Hok'].
      * rewrite decide_True by (split; [set_solver|done]). done.
      * rewrite decide_False; [done|].
        intros [Hin Hbl]. apply elem_of_cons in Hin as [Heq|Hin].
        -- apply Hok. split; [set_solver|done].
        -- apply Hok'. by split.
Qed.

Lemma parse_result (text : string) (bl : list string) (p : Patch.t) :
  Patch.parse text bl p =
  if decide (has_bad_token bl (Str.split ", " text))
  then Raise (IndexError "string index out of range")
  else Ok (parsed bl (Str.split ", " text) p).
Proof. apply parse_tokens_result. Qed.

Lemma elem_of_signed_tags (sign : ascii) (bl toks : list string)
    (tag : string) :
  tag ∈ signed_tags sign bl toks ↔ String sign tag ∈ toks ∧ tag ∉ bl.
Proof.
  unfold signed_tags.
  rewrite elem_of_list_to_set, list_elem_of_fmap. split.
  - intros (tok & -> & Hin). apply list_elem_of_filter in Hin as [[Hs Hbl] Hin].
    destruct tok as [|c rest]; simplify_eq/=. done.
  - intros [Hin Hbl]. exists (String sign tag). split; [done|].
    apply list_elem_of_filter. done.
Qed.

Lemma elem_of_parsed_added (bl toks : list string) (p : Patch.t)
    (tag : string) :
  tag ∈ Patch.added (parsed bl toks p) ↔
  tag ∈ Patch.added p ∨ (String "+" tag ∈ toks ∧ tag ∉ bl).
Proof.
  unfold parsed; simpl. rewrite elem_of_union, elem_of_signed_tags. tauto.
Qed.

Lemma elem_of_parsed_removed (bl toks : list string) (p : Patch.t)
    (tag : string) :
  tag ∈ Patch.removed (parsed bl toks p) ↔
  tag ∈ Patch.removed p ∨ (String "-" tag ∈ toks ∧ tag ∉ bl).
Proof.
  unfold parsed; simpl. rewrite elem_of_union, elem_of_signed_tags. tauto.
Qed.

(** ** Patch.add, Patch.simplified and Patch.diff keep the sets apart *)

Lemma add_disjoint (p : Patch.t) (a r : gset string) :
  disjoint_patch p → disjoint_patch (Patch.add a r p).
Proof. unfold disjoint_patch, Patch.add; simpl. set_solver. Qed.

Lemma simplified_outcome_sets (p : Patch.t) (tags : gset string)
    (wl : option (gset string)) (q : Patch.t) :
  Patch.simplified p tags wl = Some q →
  Patch.added q =
    (if Patch.truthy wl then (Patch.added p ∖ tags) ∩ default ∅ wl
     else Patch.added p ∖ tags)
  ∧ Patch.removed q =
    (if Patch.truthy wl then (Patch.removed p ∩ tags) ∩ default ∅ wl
     else Patch.removed p ∩ tags).
Proof.
  unfold Patch.simplified, Patch.simplified_outcome.
  destruct (Patch.truthy wl);
    repeat case_bool_decide; simpl; intros; simplify_eq/=; done.
Qed.

Lemma simplified_disjoint (p : Patch.t) (tags : gset string)
    (wl : option (gset string)) (q : Patch.t) :
  Patch.simplified p tags wl = Some q → disjoint_patch q.
Proof.
  intros [Ha Hr]%simplified_outcome_sets. unfold disjoint_patch.
  rewrite Ha, Hr. destruct (Patch.truthy wl); set_solver.
Qed.

Lemma diff_disjoint (A B : Patch.t) :
  disjoint_patch A → disjoint_patch B → disjoint_patch (Patch.diff A B).
Proof.
  unfold disjoint_patch. intros HA HB x.
  rewrite elem_of_diff_added, elem_of_diff_removed.
  specialize (HA x). specialize (HB x). tauto.
Qed.

Lemma lookup_add (pkg pkg' : string) (a r : gset string) (S : PatchSet.t) :
  PatchSet.add pkg a r S !! pkg' =
  if decide (pkg = pkg')
  then match S !! pkg with
       | Some p => Some (Patch.add a r p)
       | None => if Patch.empty (Patch.mk a r) then None
                 else Some (Patch.mk a r)
       end
  else S !! pkg'.
Proof.
  unfold PatchSet.add.
  destruct (decide (pkg = pkg')) as [<-|Hne].
  - destruct (S !! pkg) eqn:Hl.
    + by rewrite lookup_insert_eq.
    + destruct (Patch.empty (Patch.mk a r)); [done|].
      by rewrite lookup_insert_eq.
  - destruct (S !! pkg); [by rewrite lookup_insert_ne|].
    destruct (Patch.empty (Patch.mk a r)); [done|].
    by rewrite lookup_insert_ne.
Qed.

(** C2, as stated, fails: parsing gives a tag that comes with both
    signs to both sets, and so does [PatchSet.add] when it creates the
    entry of a package. *)
Lemma disjointness_counterexample :
  Patch.init (Some "+x, -x") [] = Ok (Patch.mk {["x"]} {["x"]})
  ∧ PatchSet.add "pkg" {["x"]} {["x"]} ∅ !! "pkg"
    = Some (Patch.mk {["x"]} {["x"]})
  ∧ ¬ disjoint_patch (Patch.mk {["x"]} {["x"]}).
Proof.
  split; [by vm_compute|]. split; [by vm_compute|].
  unfold disjoint_patch; simpl. set_solver.
Qed.

(** C2 (amended): [Patch.add] keeps the added and the removed set of a
    patch disjoint, [Patch.simplified] returns a patch whose sets are
    disjoint, [Patch.diff] of two patches with disjoint sets has
    disjoint sets, and [PatchSet.add] keeps the sets of the entry
    disjoint when the package has an entry or the incoming sets are
    disjoint; [Patch.parse] adds the signed tags to the sets as they
    come, so its result is disjoint when the patch was and no tag
    that it adds to one set is added to or was in the other.  Merging added={x} and then removed={x} into any patch
    leaves x in removed and not in added. *)
Theorem disjointness_kept :
  (∀ p a r, disjoint_patch p → disjoint_patch (Patch.add a r p))
  ∧ (∀ p tags wl q,
       Patch.simplified p tags wl = Some q → disjoint_patch q)
  ∧ (∀ A B,
       disjoint_patch A → disjoint_patch B → disjoint_patch (Patch.diff A B))
  ∧ (∀ (S : PatchSet.t) pkg a r q,
       (∀ p, S !! pkg = Some p → disjoint_patch p) →
       (S !! pkg = None → a ## r) →
       PatchSet.add pkg a r S !! pkg = Some q → disjoint_patch q)
  ∧ (∀ text bl p q,
       Patch.parse text bl p = Ok q →
       disjoint_patch p →
       (∀ tag, tag ∉ bl → String "+" tag ∈ Str.split ", " text →
               (String "-" tag ∉ Str.split ", " text)
               ∧ tag ∉ Patch.removed p) →
       (∀ tag, tag ∉ bl → String "-" tag ∈ Str.split ", " text →
               tag ∉ Patch.added p) →
       disjoint_patch q)
  ∧ (∀ p x,
       x ∈ Patch.removed (Patch.add ∅ {[x]} (Patch.add {[x]} ∅ p))
       ∧ x ∉ Patch.added (Patch.add ∅ {[x]} (Patch.add {[x]} ∅ p))).
Proof.
  split; [exact add_disjoint|].
  split; [exact simplified_disjoint|].
  split; [exact diff_disjoint|].
  split; [|split].
  - intros S pkg a r q Hold Hnew. rewrite lookup_add, decide_True by done.
    destruct (S !! pkg) as [p|] eqn:Hl.
    + intros [= <-]. apply add_disjoint. by apply Hold.
    + destruct (Patch.empty (Patch.mk a r)); [done|].
      intros [= <-]. by apply Hnew.
  - intros text bl p q Hparse Hp Hplus Hminus tag.
    rewrite parse_result in Hparse. case_decide; [done|].
    injection Hparse as <-.
    rewrite elem_of_parsed_added, elem_of_parsed_removed.
    specialize (Hp tag). specialize (Hplus tag). specialize (Hminus tag).
    tauto.
  - intros p x. unfold Patch.add; simpl. set_solver.
Qed.

Lemma disjointness_kept_witness :
  disjoint_patch (Patch.add {["a"]} {["b"]} (Patch.mk {["b"]} {["c"]}))
  ∧ disjoint_patch (Patch.mk {["b"]} ∅)
  ∧ disjoint_patch
      (Patch.diff (Patch.mk {["a"]} {["b"]}) (Patch.mk {["b"]} {["c"]}))
  ∧ disjoint_patch (Patch.mk {["a"]} {["b"]})
  ∧ disjoint_patch (Patch.mk {["a"; "c"]} {["b"]}).
Proof.
  destruct disjointness_kept as (Hadd & Hsimp & Hdiff & Hset & Hparse & _).
  split; [|split; [|split; [|split]]].
  - apply Hadd. by_decide.
  - apply (Hsimp (Patch.mk {["a"; "b"]} {["c"]}) {["a"]} None).
    by vm_compute.
  - apply Hdiff; by_decide.
  - apply (Hset ∅ "pkg" {["a"]} {["b"]}).
    + intros p Hp. by rewrite lookup_empty in Hp.
    + intros _. by_decide.
    + by vm_compute.
  - apply (Hparse "+a, -b" [] (Patch.mk {["c"]} ∅)).
    + by vm_compute.
    + by_decide.
    + intros tag _ Hin. vm_compute in Hin.
      apply list_elem_of_In in Hin. simpl in Hin.
      destruct Hin as [[= <-]|[[=]|[]]]. split; [|set_solver].
      intros Hin. apply list_elem_of_In in Hin. vm_compute in Hin.
      destruct Hin as [[=]|[[=]|[]]].
    + intros tag _ Hin. vm_compute in Hin.
      apply list_elem_of_In in Hin. simpl in Hin.
      destruct Hin as [[=]|[[= <-]|[]]]. set_solver.
Defined.

(** ** Tokens without a sign *)

(** C3, as stated, fails: a token that starts with neither [+] nor
    [-] raises nothing, the loop goes on to the next token. *)
Lemma parse_unsigned_counterexample :
  Patch.parse "xfoo" [] Patch.new = Ok Patch.new
  ∧ Patch.parse "+a, xfoo, -b" [] Patch.new = Ok (Patch.mk {["a"]} {["b"]}).
Proof. split; by vm_compute. Qed.

(** C3 (amended): on a text whose tokens are all non-empty (or when
    the blacklist holds the empty tag) [Patch.parse] does not fail; a
    token whose first character is neither [+] nor [-] is skipped and
    a token whose tag is blacklisted is dropped: the tags added to
    [added] are those of the [+tag] tokens that are not blacklisted,
    the tags added to [removed] those of the [-tag] tokens that are
    not blacklisted. *)
Theorem parse_skips_unsigned (text : string) (bl : list string)
    (p : Patch.t) :
  (EmptyString ∈ Str.split ", " text → EmptyString ∈ bl) →
  ∃ q, Patch.parse text bl p = Ok q
       ∧ (∀ tag, tag ∈ Patch.added q ↔
                 tag ∈ Patch.added p
                 ∨ (String "+" tag ∈ Str.split ", " text ∧ tag ∉ bl))
       ∧ (∀ tag, tag ∈ Patch.removed q ↔
                 tag ∈ Patch.removed p
                 ∨ (String "-" tag ∈ Str.split ", " text ∧ tag ∉ bl)).
Proof.
  intros Hok. exists (parsed bl (Str.split ", " text) p).
  split; [|split].
  - rewrite parse_result. rewrite decide_False; [done|].
    intros [Hin Hbl]. by apply Hbl, Hok.
  - apply elem_of_parsed_added.
  - apply elem_of_parsed_removed.
Qed.

Lemma parse_skips_unsigned_witness :
  ∃ q, Patch.parse "+a, xfoo, -b, +c" ["c"] Patch.new = Ok q
       ∧ (∀ tag, tag ∈ Patch.added q ↔
                 tag ∈ Patch.added Patch.new
                 ∨ (String "+" tag ∈ Str.split ", " "+a, xfoo, -b, +c"
                    ∧ tag ∉ ["c"]))
       ∧ (∀ tag, tag ∈ Patch.removed q ↔
                 tag ∈ Patch.removed Patch.new
                 ∨ (String "-" tag ∈ Str.split ", " "+a, xfoo, -b, +c"
                    ∧ tag ∉ ["c"])).
Proof.
  apply (parse_skips_unsigned "+a, xfoo, -b, +c" ["c"] Patch.new).
  vm_compute. intros Hin. apply list_elem_of_In in Hin. simpl in Hin.
  destruct Hin as [[=]|[[=]|[[=]|[[=]|[]]]]].
Defined.

(** ** Serialisation *)

Lemma sorted_spec (s : gset string) :
  StronglySorted String.le (Str.sorted s)
  ∧ NoDup (Str.sorted s)
  ∧ ∀ t, t ∈ Str.sorted s ↔ t ∈ s.
Proof.
  unfold Str.sorted. split; [|split].
  - apply StronglySorted_merge_sort; apply _.
  - rewrite merge_sort_Permutation. apply NoDup_elements.
  - intros t. rewrite merge_sort_Permutation. apply elem_of_elements.
Qed.

(** [Patch.__str__], used to display a patch, puts the added tags
    first, unlike [Patch.write]. *)
Example str_puts_added_first :
  Patch.str (Patch.mk {["b"; "a"]} {["z"]}) = "+a, +b, -z".
Proof. by vm_compute. Qed.

(** C4: [Patch.write] emits the [-tag] entries of the removed set in
    ascending order, each tag once, then the [+tag] entries of the
    added set in ascending order, each tag once, joined by a comma
    and a space; the patch with added={b,a} and removed={z} is
    written as [-z, +a, +b]. *)
Theorem write_canonical :
  (∀ p : Patch.t,
     ∃ dels adds : list string,
       Patch.write p =
         Str.join ", " (((λ t, "-" +:+ t) <$> dels)
                        ++ ((λ t, "+" +:+ t) <$> adds))
       ∧ StronglySorted String.le dels ∧ NoDup dels
       ∧ (∀ t, t ∈ dels ↔ t ∈ Patch.removed p)
       ∧ StronglySorted String.le adds ∧ NoDup adds
       ∧ (∀ t, t ∈ adds ↔ t ∈ Patch.added p))
  ∧ Patch.write (Patch.mk {["b"; "a"]} {["z"]}) = "-z, +a, +b".
Proof.
  split; [|by vm_compute].
  intros p. exists (Str.sorted (Patch.removed p)), (Str.sorted (Patch.added p)).
  destruct (sorted_spec (Patch.removed p)) as (Hsd & Hnd & Hed).
  destruct (sorted_spec (Patch.added p)) as (Hsa & Hna & Hea).
  split; [reflexivity|]. by repeat split; try apply Hed; try apply Hea.
Qed.

(** ** The two indices of the tag database *)




(** ** The role/library equivalence check *)

(** C9: on the tag set {role::devel-lib} the check yields exactly one
    violation, with [has] = role::devel-lib and [miss] =
    devel::library, and so it does on every tag set that holds
    role::devel-lib and not devel::library; on a tag set that holds
    devel::library and not role::devel-lib it yields exactly one
    violation, with [miss] = role::devel-lib. *)
Theorem has_equivs_one_violation :
  HasEquivsTagcheck.check_tags {["role::devel-lib"]}
  = [ {[ "has" := "role::devel-lib"; "miss" := "devel::library" ]} ]
  ∧ (∀ tags : gset string,
       "role::devel-lib" ∈ tags → "devel::library" ∉ tags →
       HasEquivsTagcheck.check_tags tags
       = [ {[ "has" := "role::devel-lib"; "miss" := "devel::library" ]} ])
  ∧ (∀ tags : gset string,
       "devel::library" ∈ tags → "role::devel-lib" ∉ tags →
       ∃ data : gmap string string,
         HasEquivsTagcheck.check_tags tags = [data]
         ∧ data !! "miss" = Some "role::devel-lib"
         ∧ data !! "has" = Some "devel::library").
Proof.
  split; [by vm_compute|]. split.
  - intros tags Hrole Hlib. unfold HasEquivsTagcheck.check_tags.
    by rewrite bool_decide_true, bool_decide_false by done.
  - intros tags Hlib Hrole. unfold HasEquivsTagcheck.check_tags.
    rewrite (bool_decide_false _ Hrole), (bool_decide_true _ Hlib). simpl.
    eexists. split; [done|]. split; by vm_compute.
Qed.

Lemma has_equivs_one_violation_witness :
  HasEquivsTagcheck.check_tags {["role::devel-lib"; "admin::kernel"]}
  = [ {[ "has" := "role::devel-lib"; "miss" := "devel::library" ]} ]
  ∧ ∃ data : gmap string string,
      HasEquivsTagcheck.check_tags {["devel::library"; "devel::lang:c"]}
      = [data]
      ∧ data !! "miss" = Some "role::devel-lib"
      ∧ data !! "has" = Some "devel::library".
Proof.
  destruct has_equivs_one_violation as (_ & Hrole & Hlib). split.
  - apply Hrole; by_decide.
  - apply Hlib; by_decide.
Defined.

(** ** Simplifying a patch set *)

Lemma patch_empty_false (p : Patch.t) :
  Patch.empty p = false ↔ Patch.added p ≠ ∅ ∨ Patch.removed p ≠ ∅.
Proof.
  unfold Patch.empty.
  destruct (decide (Patch.added p = ∅)) as [Ha|Ha];
    destruct (decide (Patch.removed p = ∅)) as [Hr|Hr];
    rewrite ?(bool_decide_true _ Ha), ?(bool_decide_false _ Ha),
      ?(bool_decide_true _ Hr), ?(bool_decide_false _ Hr); simpl;
    naive_solver.
Qed.

Lemma simplified_nonempty (p : Patch.t) (tags : gset string)
    (wl : option (gset string)) (q : Patch.t) :
  Patch.simplified p tags wl = Some q → Patch.empty q = false.
Proof.
  unfold Patch.simplified, Patch.simplified_outcome.
  destruct (Patch.truthy wl);
    repeat case_bool_decide; simpl; intros; simplify_eq/=;
    apply patch_empty_false; simpl;
    solve [tauto | left; congruence | right; congruence].
Qed.

(** Simplifying what [Patch.simplified] returned takes the branch
    that returns the patch itself. *)
Lemma second_pass_returns_self (p : Patch.t) (tags : gset string)
    (wl : option (gset string)) (q : Patch.t) :
  Patch.simplified p tags wl = Some q →
  Patch.simplified_outcome q tags wl = Patch.Self.
Proof.
  intros Hq. pose proof (simplified_nonempty _ _ _ _ Hq) as Hne.
  apply patch_empty_false in Hne.
  apply simplified_outcome_sets in Hq as [Ha Hr].
  unfold Patch.simplified_outcome.
  assert (Ha' : (if Patch.truthy wl
                 then (Patch.added q ∖ tags) ∩ default ∅ wl
                 else Patch.added q ∖ tags) = Patch.added q).
  { rewrite Ha at 3. destruct (Patch.truthy wl); set_solver. }
  assert (Hr' : (if Patch.truthy wl
                 then (Patch.removed q ∩ tags) ∩ default ∅ wl
                 else Patch.removed q ∩ tags) = Patch.removed q).
  { rewrite Hr at 3. destruct (Patch.truthy wl); set_solver. }
  rewrite Ha', Hr'.
  rewrite !(bool_decide_true (_ = _) eq_refl).
  destruct Hne as [Hne|Hne]; rewrite (bool_decide_false _ Hne);
    by rewrite ?andb_false_r.
Qed.

Lemma simplified_twice (p : Patch.t) (tags : gset string)
    (wl : option (gset string)) (q : Patch.t) :
  Patch.simplified p tags wl = Some q → Patch.simplified q tags wl = Some q.
Proof.
  intros Hq. unfold Patch.simplified.
  by rewrite (second_pass_returns_self _ _ _ _ Hq).
Qed.

Section SimplifiedPatchSet.
Context {DB : Type}.
Variable has_package : DB → string → bool.
Variable tags_of_package : DB → string → gset string.

Lemma lookup_simplified (S : PatchSet.t) (tagdb : DB)
  (wl : option (gset string)) (pkg : string) :
PatchSet.simplified has_package tags_of_package S tagdb wl !! pkg =
S !! pkg ≫= λ p,
  if has_package tagdb pkg
  then Patch.simplified p (tags_of_package tagdb pkg) wl
  else None.
Proof.
unfold PatchSet.simplified. revert pkg.
apply (map_fold_weak_ind (λ (res m : PatchSet.t), ∀ pkg,
  res !! pkg = m !! pkg ≫= λ p,
    if has_package tagdb pkg
    then Patch.simplified p (tags_of_package tagdb pkg) wl
    else None)).
- intros pkg. by rewrite !lookup_empty.
- intros i x m res Hi IH pkg. unfold PatchSet.simplified_step.
  destruct (decide (i = pkg)) as [->|Hne].
  + rewrite lookup_insert_eq; simpl.
    specialize (IH pkg). rewrite Hi in IH; simpl in IH.
    destruct (has_package tagdb pkg); simpl; [|done].
    destruct (Patch.simplified x _ wl); [|done].
    by rewrite lookup_insert_eq.
  + rewrite lookup_insert_ne by done. rewrite <- IH.
    destruct (has_package tagdb i); simpl; [|done].
    destruct (Patch.simplified x _ wl); [|done].
    by rewrite lookup_insert_ne.
Qed.

(** C7: simplifying a patch set twice against the same database and
  whitelist gives the patch set that simplifying once gives. *)
Theorem simplified_idempotent (S : PatchSet.t) (tagdb : DB)
  (wl : option (gset string)) :
PatchSet.simplified has_package tags_of_package
  (PatchSet.simplified has_package tags_of_package S tagdb wl) tagdb wl
= PatchSet.simplified has_package tags_of_package S tagdb wl.
Proof.
apply map_eq; intros pkg. rewrite lookup_simplified.
destruct (PatchSet.simplified _ _ S tagdb wl !! pkg) as [q|] eqn:Hq;
  [|done].
simpl. rewrite lookup_simplified in Hq.
destruct (S !! pkg) as [p|]; [|done]. simpl in Hq.
destruct (has_package tagdb pkg); [|done].
by apply (simplified_twice p).
Qed.

(** Every patch of a simplified patch set is returned as the same
  object by the second pass, so the two patch sets are equal as
  Python dicts, whose values are compared by identity. *)
Lemma simplified_entries_returned_as_self (S : PatchSet.t) (tagdb : DB)
  (wl : option (gset string)) (pkg : string) (q : Patch.t) :
PatchSet.simplified has_package tags_of_package S tagdb wl !! pkg = Some q →
has_package tagdb pkg = true
∧ Patch.simplified_outcome q (tags_of_package tagdb pkg) wl = Patch.Self.
Proof.
rewrite lookup_simplified. destruct (S !! pkg) as [p|]; [|done]. simpl.
destruct (has_package tagdb pkg); [|done].
intros Hq. split; [done|]. by eapply second_pass_returns_self.
Qed.

End SimplifiedPatchSet.

(** [test_simplify] of tests.py. *)
Example test_simplify :
  let ps := PatchSet.add "vzdump"
              {["admin::backup"; "interface::commandline"]} ∅ ∅ in
  let db := TagDB.mk
              {["vzdump" := {["admin::backup"; "interface::commandline";
                              "role::program"]}]} ∅ in
  PatchSet.simplified TagDB.has_package TagDB.tags_of_package ps db None = ∅.
Proof. by vm_compute. Qed.

(** ** No empty patch in a patch set *)

Lemma patch_empty_true (p : Patch.t) :
  Patch.empty p = true ↔ Patch.added p = ∅ ∧ Patch.removed p = ∅.
Proof.
  destruct (Patch.empty p) eqn:He.
  - split; [intros _|done].
    destruct (decide (Patch.added p = ∅)) as [Ha|Ha];
      destruct (decide (Patch.removed p = ∅)) as [Hr|Hr]; [done|..];
      exfalso; assert (Patch.empty p = false) as Hf
        by (apply patch_empty_false; tauto); congruence.
  - split; [done|]. intros [Ha Hr].
    apply patch_empty_false in He as [?|?]; done.
Qed.

Lemma add_nonempty (p : Patch.t) (a r : gset string) :
  Patch.empty p = false → Patch.empty (Patch.add a r p) = false.
Proof.
  intros Hp. destruct (Patch.empty (Patch.add a r p)) eqn:He; [|done].
  apply patch_empty_true in He as [Ha Hr].
  unfold Patch.add in Ha, Hr; simpl in Ha, Hr.
  assert (Patch.empty p = true) as Ht; [|congruence].
  apply patch_empty_true.
  assert (Hnr : ∀ x, x ∉ r) by (intros x Hx; set_solver).
  assert (Hna : ∀ x, x ∉ a).
  { intros x Hx. specialize (Hnr x). set_solver. }
  split; apply elem_of_equiv_empty_L; intros x Hx;
    specialize (Hnr x); specialize (Hna x); set_solver.
Qed.

Lemma parsed_nonempty (bl toks : list string) (p : Patch.t) :
  Patch.empty p = false → Patch.empty (parsed bl toks p) = false.
Proof.
  intros Hp. destruct (Patch.empty (parsed bl toks p)) eqn:He; [|done].
  apply patch_empty_true in He as [Ha Hr].
  unfold parsed in Ha, Hr; simpl in Ha, Hr.
  assert (Patch.empty p = true) as Ht; [|congruence].
  apply patch_empty_true. set_solver.
Qed.









(** ** Reading a patch file *)

Lemma entry_of_not_blank (line pkg tags : string) :
  entry_of line = Some (pkg, tags) → Str.strip line ≠ EmptyString.
Proof. unfold entry_of. intros He Hs. rewrite Hs in He. done. Qed.

Lemma read_line_blank (bl : list string) (S : PatchSet.t) (line : string) :
  Str.strip line = EmptyString → PatchSet.read_line bl S line = Ok S.
Proof. intros Hs. unfold PatchSet.read_line. by rewrite Hs. Qed.

Lemma read_line_no_separator (bl : list string) (S : PatchSet.t)
    (line : string) :
  Str.strip line ≠ EmptyString → entry_of line = None →
  PatchSet.read_line bl S line =
  if Re.empty_patch_line (Str.strip line) then Ok S
  else Raise (ValueError ("Cannot parse line '" +:+ Str.strip line +:+ "'")).
Proof.
  intros Hs. unfold entry_of, PatchSet.read_line.
  rewrite bool_decide_false by done.
  by destruct (Str.split1 ": " (Str.strip line)) as [|? [|? [|? ?]]].
Qed.

Lemma read_line_entry (bl : list string) (S : PatchSet.t)
    (line pkg tags : string) :
  entry_of line = Some (pkg, tags) →
  PatchSet.read_line bl S line =
  if decide (has_bad_token bl (Str.split ", " tags))
  then Raise (IndexError "string index out of range")
  else Ok (with_entry bl (Str.split ", " tags) pkg S).
Proof.
  intros He. pose proof (entry_of_not_blank _ _ _ He) as Hs.
  unfold entry_of in He. unfold PatchSet.read_line, with_entry.
  rewrite bool_decide_false by done.
  destruct (Str.split1 ": " (Str.strip line)) as [|? [|? [|? ?]]];
    simplify_eq/=.
  unfold Patch.init.
  destruct (S !! pkg) as [p|]; rewrite parse_result;
    case_decide; try done; cbn [mbind result_bind].
  by destruct (Patch.empty (parsed bl (Str.split ", " tags) Patch.new)).
Qed.

(** A line is blank, or holds the separator, or is a bare package
    name, or is malformed. *)
Lemma line_cases (line : string) :
  Str.strip line = EmptyString
  ∨ (∃ pkg tags, entry_of line = Some (pkg, tags))
  ∨ (Str.strip line ≠ EmptyString ∧ entry_of line = None
     ∧ Re.empty_patch_line (Str.strip line) = true)
  ∨ malformed line.
Proof.
  unfold malformed.
  destruct (decide (Str.strip line = EmptyString)); [by left|].
  destruct (entry_of line) as [[pkg tags]|]; [right; left; eauto|].
  destruct (Re.empty_patch_line (Str.strip line)); tauto.
Qed.

(** Reading raises only on a malformed line, with the [ValueError]
    that carries the line, or on a line whose tag list has an empty
    token, with the [IndexError] of [Patch.parse]. *)
Lemma read_fd_raises_only_on (fd bl : list string) (S : PatchSet.t)
    (e : exn) :
  PatchSet.read_fd fd bl S = Raise e →
  ∃ line, line ∈ fd
    ∧ ((malformed line
        ∧ e = ValueError ("Cannot parse line '" +:+ Str.strip line +:+ "'"))
       ∨ (∃ pkg tags, entry_of line = Some (pkg, tags)
            ∧ has_bad_token bl (Str.split ", " tags)
            ∧ e = IndexError "string index out of range")).
Proof.
  unfold PatchSet.read_fd. revert S.
  induction fd as [|line fd IH]; intros S; cbn [for_each]; [done|].
  destruct (PatchSet.read_line bl S line) as [S1|e1] eqn:Hline;
    cbn [mbind result_bind].
  - intros (l & Hin & Hl)%IH. exists l. split; [set_solver|done].
  - intros [= ->]. exists line. split; [set_solver|].
    destruct (line_cases line) as [Hb|[(pkg & tags & He)|[(Hs & He & Hre)|Hm]]].
    + by rewrite read_line_blank in Hline.
    + right. exists pkg, tags. rewrite (read_line_entry _ _ _ _ _ He) in Hline.
      case_decide; by simplify_eq.
    + rewrite read_line_no_separator, Hre in Hline; done.
    + left. split; [done|]. destruct Hm as (Hs & He & Hre).
      rewrite read_line_no_separator, Hre in Hline by done. by simplify_eq.
Qed.

(** Reading succeeds when no line is malformed and no tag list has an
    empty token. *)
Lemma read_fd_succeeds (fd bl : list string) (S : PatchSet.t) :
  (∀ line, line ∈ fd → ¬ malformed line) →
  (∀ line pkg tags, line ∈ fd → entry_of line = Some (pkg, tags) →
     ¬ has_bad_token bl (Str.split ", " tags)) →
  ∃ S', PatchSet.read_fd fd bl S = Ok S'.
Proof.
  intros Hm Hb. destruct (PatchSet.read_fd fd bl S) as [S'|e] eqn:Hr; [eauto|].
  apply read_fd_raises_only_on in Hr
    as (line & Hin & [[Hmal _]|(pkg & tags & He & Hbad & _)]).
  - by destruct (Hm line Hin).
  - by destruct (Hb line pkg tags Hin He).
Qed.

(** The lines that the reader skips or refuses, as they are written
    in a file. *)
Example read_fd_skips_and_refuses :
  PatchSet.init [""; "   "; "pkg"; "pkg:"; "pkg: +a, -b"] []
  = Ok {["pkg" := Patch.mk {["a"]} {["b"]}]}
  ∧ PatchSet.init ["pkg: +a"; "not a patch"] []
    = Raise (ValueError "Cannot parse line 'not a patch'").
Proof. split; by vm_compute. Qed.

(** C8 (the code departs from it): a line that holds the separator
    and whose tag list has an empty token makes the reader fail with
    the [IndexError] that [t[0]] raises in [Patch.parse], although
    the line is none of those for which a parse error is raised. *)
Theorem read_fd_empty_token_raises :
  entry_of "pkg: , +x" = Some ("pkg", ", +x")
  ∧ PatchSet.init ["pkg: , +x"] []
    = Raise (IndexError "string index out of range")
  ∧ PatchSet.init ["pkg: +a, , +b"] []
    = Raise (IndexError "string index out of range").
Proof. repeat split; by vm_compute. Qed.

(** ** Two lines for one package *)

Lemma parsed_new_empty_sets (bl toks : list string) :
  Patch.empty (parsed bl toks Patch.new) = true →
  signed_tags "+" bl toks = ∅ ∧ signed_tags "-" bl toks = ∅.
Proof.
  intros [Ha Hr]%patch_empty_true.
  unfold parsed, Patch.new in Ha, Hr; simpl in Ha, Hr. set_solver.
Qed.

(** C10: two lines for the same package give one entry whose added
    and removed sets are the unions of the signed tags of the two
    lines, with no cancellation between them (and no entry when
    neither line has a signed tag that is not blacklisted); the line
    [pkg: +x] followed by the line [pkg: -x] gives pkg the patch with
    added={x} and removed={x}. *)
Theorem read_fd_same_package_unions :
  PatchSet.init ["pkg: +x"; "pkg: -x"] []
  = Ok {["pkg" := Patch.mk {["x"]} {["x"]}]}
  ∧ ∀ (l1 l2 pkg tags1 tags2 : string) (bl : list string),
      entry_of l1 = Some (pkg, tags1) →
      entry_of l2 = Some (pkg, tags2) →
      ¬ has_bad_token bl (Str.split ", " tags1) →
      ¬ has_bad_token bl (Str.split ", " tags2) →
      let a := signed_tags "+" bl (Str.split ", " tags1)
               ∪ signed_tags "+" bl (Str.split ", " tags2) in
      let r := signed_tags "-" bl (Str.split ", " tags1)
               ∪ signed_tags "-" bl (Str.split ", " tags2) in
      PatchSet.init [l1; l2] bl
      = Ok (if Patch.empty (Patch.mk a r) then ∅
            else {[pkg := Patch.mk a r]}).
Proof.
  split; [by vm_compute|].
  intros l1 l2 pkg tags1 tags2 bl He1 He2 Hok1 Hok2 a r.
  unfold PatchSet.init, PatchSet.read_fd. cbn [for_each].
  rewrite (read_line_entry _ _ _ _ _ He1), decide_False by done.
  cbn [mbind result_bind].
  rewrite (read_line_entry _ _ _ _ _ He2), decide_False by done.
  cbn [mbind result_bind]. f_equal.
  unfold with_entry at 2. rewrite lookup_empty.
  destruct (Patch.empty (parsed bl (Str.split ", " tags1) Patch.new)) eqn:E1.
  - apply parsed_new_empty_sets in E1 as [Ha1 Hr1].
    unfold with_entry. rewrite lookup_empty.
    assert (parsed bl (Str.split ", " tags2) Patch.new = Patch.mk a r) as ->.
    { unfold parsed, a, r, Patch.new; simpl. rewrite Ha1, Hr1.
      f_equal; set_solver. }
    by destruct (Patch.empty (Patch.mk a r)).
  - unfold with_entry. rewrite lookup_insert_eq, insert_insert_eq.
    assert (parsed bl (Str.split ", " tags2)
              (parsed bl (Str.split ", " tags1) Patch.new)
            = Patch.mk a r) as Heq.
    { unfold parsed, a, r, Patch.new; simpl. f_equal; set_solver. }
    rewrite Heq.
    assert (Patch.empty (Patch.mk a r) = false) as ->; [|done].
    rewrite <- Heq. by apply parsed_nonempty.
Qed.

Lemma read_fd_same_package_unions_witness :
  PatchSet.init ["lib: +role::shared-lib, -x11::library";
                 "lib: +x11::library, junk"] ["junk"]
  = Ok {["lib" := Patch.mk {["role::shared-lib"; "x11::library"]}
                           {["x11::library"]}]}.
Proof.
  destruct read_fd_same_package_unions as [_ Hgen].
  rewrite (Hgen "lib: +role::shared-lib, -x11::library"
             "lib: +x11::library, junk" "lib"
             "+role::shared-lib, -x11::library" "+x11::library, junk"
             ["junk"]).
  - by vm_compute.
  - by vm_compute.
  - by vm_compute.
  - by_decide.
  - by_decide.
Defined.

(** * Further properties of the code *)

(** ** Loops over a dict that touch one key per round *)

(** A loop over the items of a dict whose round for key [i] changes
    what is observed at [i] only: the observation at [j] after the
    loop is the one round for [j], if [j] is a key. *)
Lemma map_fold_pointwise {A B V : Type} (obs : B → string → V)
    (f : string → A → B → B) (g : string → A → V → V)
    (m : gmap string A) (init : B) (j : string) :
  (∀ i x acc k,
     obs (f i x acc) k = if decide (i = k) then g i x (obs acc i)
                         else obs acc k) →
  obs (map_fold f init m) j =
  match m !! j with
  | Some x => g j x (obs init j)
  | None => obs init j
  end.
Proof.
  intros Hf. revert j.
  apply (map_fold_weak_ind (λ (acc : B) (m' : gmap string A), ∀ j,
    obs acc j = match m' !! j with
                | Some x => g j x (obs init j)
                | None => obs init j
                end)).
  - intros j. by rewrite lookup_empty.
  - intros i x m' acc Hi IH j. rewrite Hf.
    destruct (decide (i = j)) as [->|Hne].
    + rewrite lookup_insert_eq. by rewrite IH, Hi.
    + rewrite lookup_insert_ne by done. apply IH.
Qed.

(** ** PatchSet.apply_to, package by package *)

Lemma tags_of_apply_to (S : PatchSet.t) (tagdb : TagDB.t) (pkg : string) :
  TagDB.tags_of (PatchSet.apply_to S tagdb) pkg =
  match S !! pkg with
  | Some p => Patch.apply_tags p (TagDB.tags_of tagdb pkg)
  | None => TagDB.tags_of tagdb pkg
  end.
Proof.
  unfold PatchSet.apply_to.
  apply (map_fold_pointwise TagDB.tags_of
           (λ pkg patch acc, Patch.apply patch pkg acc)
           (λ _ patch ts, Patch.apply_tags patch ts)).
  intros i x acc k. apply tags_of_apply.
Qed.

(** ** PatchSet.add_patchset and PatchSet.diff, package by package *)

Lemma lookup_add_entry (pkg pkg' : string) (a r : gset string)
    (S : PatchSet.t) :
  PatchSet.add pkg a r S !! pkg' =
  if decide (pkg = pkg') then add_entry a r (S !! pkg) else S !! pkg'.
Proof. rewrite lookup_add. unfold add_entry, new_entry. done. Qed.


Lemma lookup_diff_first_loop (S other : PatchSet.t) (pkg : string) :
  map_fold (PatchSet.diff_step other) ∅ S !! pkg =
  match S !! pkg with
  | Some p => match other !! pkg with
              | Some o => new_entry (Patch.diff p o)
              | None => new_entry (reverse p)
              end
  | None => None
  end.
Proof.
  rewrite (map_fold_pointwise (λ (acc : PatchSet.t) k, acc !! k)
             (PatchSet.diff_step other)
             (λ k p entry,
                match other !! k with
                | Some o => add_entry (Patch.added (Patch.diff p o))
                              (Patch.removed (Patch.diff p o)) entry
                | None => add_entry (Patch.removed p) (Patch.added p) entry
                end)).
  - rewrite lookup_empty. destruct (S !! pkg) as [p|]; [|done].
    by destruct (other !! pkg).
  - intros i x acc k. unfold PatchSet.diff_step.
    destruct (other !! i); rewrite lookup_add_entry; by case_decide.
Qed.

(** The entry of a package in [self.diff(patchset)]: the difference
    of the two patches when both patch sets have the package, the
    reverse of the patch when only [self] has it, the patch itself
    when only [patchset] has it; an empty patch gives no entry. *)
Lemma lookup_diff (S other : PatchSet.t) (pkg : string) :
  PatchSet.diff S other !! pkg =
  match S !! pkg, other !! pkg with
  | Some p, Some o => new_entry (Patch.diff p o)
  | Some p, None => new_entry (reverse p)
  | None, Some o => new_entry o
  | None, None => None
  end.
Proof.
  unfold PatchSet.diff.
  rewrite (map_fold_pointwise (λ (acc : PatchSet.t) k, acc !! k)
             (PatchSet.diff_rest S)
             (λ k o entry,
                match S !! k with
                | None => add_entry (Patch.added o) (Patch.removed o) entry
                | Some _ => entry
                end)).
  - rewrite lookup_diff_first_loop.
    destruct (S !! pkg) as [p|], (other !! pkg) as [[a r]|]; done.
  - intros i x acc k. unfold PatchSet.diff_rest.
    destruct (S !! i); [|apply lookup_add_entry].
    by destruct (decide (i = k)) as [->|].
Qed.

Lemma patch_diff_self (p : Patch.t) : Patch.diff p p = Patch.new.
Proof. unfold Patch.diff, Patch.new. f_equal; set_solver. Qed.

(** The difference of a patch set with itself is the empty patch
    set. *)
Theorem diff_self_empty (S : PatchSet.t) : PatchSet.diff S S = ∅.
Proof.
  apply map_eq; intros pkg. rewrite lookup_diff, lookup_empty.
  destruct (S !! pkg) as [p|]; [|done]. by rewrite patch_diff_self.
Qed.

(** ** Undoing a patch, and the difference of two patch sets *)






(** Without the precondition the tags are not restored: a patch that
    adds a tag the package has makes its reverse remove that tag. *)
Example reverse_of_noop_add_loses_tag :
  Patch.apply_tags (reverse (Patch.mk {["x"]} ∅))
    (Patch.apply_tags (Patch.mk {["x"]} ∅) {["x"]}) = ∅.
Proof. by vm_compute. Qed.




(** ** What simplifying keeps and what it drops *)

Lemma difference_empty_subseteq (X Y : gset string) :
  X ∖ Y = ∅ ↔ X ⊆ Y.
Proof.
  split.
  - intros He x Hx. destruct (decide (x ∈ Y)); [done|]. set_solver.
  - set_solver.
Qed.

Lemma intersection_empty_disjoint (X Y : gset string) :
  X ∩ Y = ∅ ↔ X ## Y.
Proof. set_solver. Qed.

Lemma simplified_none (p : Patch.t) (tags : gset string)
    (wl : option (gset string)) :
  Patch.truthy wl = false →
  (Patch.simplified p tags wl = None
   ↔ Patch.added p ⊆ tags ∧ Patch.removed p ## tags).
Proof.
  intros Hwl. unfold Patch.simplified, Patch.simplified_outcome.
  rewrite Hwl, <- difference_empty_subseteq, <- intersection_empty_disjoint.
  destruct (decide (Patch.added p ∖ tags = ∅)) as [Ha|Ha];
    destruct (decide (Patch.removed p ∩ tags = ∅)) as [Hr|Hr];
    rewrite ?(bool_decide_true _ Ha), ?(bool_decide_false _ Ha),
      ?(bool_decide_true _ Hr), ?(bool_decide_false _ Hr); simpl.
  - done.
  - destruct (bool_decide _ && bool_decide _); (split; [done|]); by intros [? ?].
  - destruct (bool_decide _ && bool_decide _); (split; [done|]); by intros [? ?].
  - destruct (bool_decide _ && bool_decide _); (split; [done|]); by intros [? ?].
Qed.

Lemma simplified_same_tags (p : Patch.t) (tags : gset string)
    (wl : option (gset string)) :
  Patch.truthy wl = false → disjoint_patch p →
  match Patch.simplified p tags wl with
  | Some q => Patch.apply_tags q tags
  | None => tags
  end = Patch.apply_tags p tags.
Proof.
  intros Hwl Hp. destruct (Patch.simplified p tags wl) as [q|] eqn:Hq.
  - apply simplified_outcome_sets in Hq as [Ha Hr]. rewrite Hwl in Ha, Hr.
    apply set_eq; intros x. rewrite !elem_of_apply_tags, Ha, Hr.
    rewrite elem_of_difference, elem_of_intersection.
    specialize (Hp x).
    destruct (decide (x ∈ tags)); destruct (decide (x ∈ Patch.added p));
      destruct (decide (x ∈ Patch.removed p)); tauto.
  - apply simplified_none in Hq as [Ha Hr]; [|done].
    apply set_eq; intros x. rewrite elem_of_apply_tags.
    specialize (Ha x). specialize (Hr x).
    destruct (decide (x ∈ tags)); tauto.
Qed.

(** A patch with a tag on both sides is not simplified faithfully:
    applied as it is the tag stays, simplified the tag goes. *)
Example simplified_changes_conflicting_patch :
  Patch.apply_tags (Patch.mk {["x"]} {["x"]}) {["x"]} = {["x"]}
  ∧ Patch.simplified (Patch.mk {["x"]} {["x"]}) {["x"]} None
    = Some (Patch.mk ∅ {["x"]}).
Proof. split; by vm_compute. Qed.

(** Every entry of a simplified patch set belongs to a package of the
    database and stems from the entry of that package: it is
    effective on the tags of the package, it changes nothing that the
    original patch did not change, and under a non-empty whitelist
    all its tags are whitelisted. *)
Theorem simplified_entries {DB : Type} (has_package : DB → string → bool)
    (tags_of_package : DB → string → gset string)
    (S : PatchSet.t) (tagdb : DB) (wl : option (gset string))
    (pkg : string) (q : Patch.t) :
  PatchSet.simplified has_package tags_of_package S tagdb wl !! pkg = Some q →
  has_package tagdb pkg = true
  ∧ ∃ p, S !! pkg = Some p
         ∧ effective q (tags_of_package tagdb pkg)
         ∧ Patch.added q ⊆ Patch.added p
         ∧ Patch.removed q ⊆ Patch.removed p
         ∧ (∀ w, wl = Some w → w ≠ ∅ →
                 Patch.added q ∪ Patch.removed q ⊆ w).
Proof.
  rewrite lookup_simplified. destruct (S !! pkg) as [p|]; [|done]. simpl.
  destruct (has_package tagdb pkg); [|done].
  intros [Ha Hr]%simplified_outcome_sets. split; [done|].
  exists p. split; [done|]. unfold effective. rewrite Ha, Hr.
  destruct wl as [w|]; simpl.
  - destruct (decide (w = ∅)) as [->|Hw].
    + rewrite bool_decide_true by done. simpl.
      split; [split; set_solver|]. split; [set_solver|].
      split; [set_solver|]. by intros w' [= <-] Hw'.
    + rewrite bool_decide_false by done. simpl.
      split; [split; set_solver|]. split; [set_solver|].
      split; [set_solver|]. intros w' [= <-] _. set_solver.
  - split; [split; set_solver|]. split; [set_solver|].
    split; [set_solver|]. by intros w' [=].
Qed.


Lemma simplified_entries_witness :
  let S : PatchSet.t :=
    {["vzdump" := Patch.mk {["admin::backup"; "role::program"]} ∅]} in
  let db := TagDB.mk {["vzdump" := {["admin::backup"]}]} ∅ in
  TagDB.has_package db "vzdump" = true
  ∧ ∃ p, S !! "vzdump" = Some p
         ∧ effective (Patch.mk {["role::program"]} ∅)
             (TagDB.tags_of_package db "vzdump")
         ∧ Patch.added (Patch.mk {["role::program"]} ∅) ⊆ Patch.added p
         ∧ Patch.removed (Patch.mk {["role::program"]} ∅) ⊆ Patch.removed p
         ∧ (∀ w, None = Some w → w ≠ ∅ →
                 Patch.added (Patch.mk {["role::program"]} ∅)
                 ∪ Patch.removed (Patch.mk {["role::program"]} ∅) ⊆ w).
Proof.
  intros S db.
  apply (simplified_entries TagDB.has_package TagDB.tags_of_package
           S db None "vzdump" (Patch.mk {["role::program"]} ∅)).
  by vm_compute.
Defined.


(** [self.diff(patchset)], package by package: the difference of the
    two patches when both patch sets have the package, the reverse of
    the patch when only [self] has it, the patch itself when only
    [patchset] has it; an empty patch gives no entry, and no other
    package gets one. *)
Theorem diff_by_package (S other : PatchSet.t) :
  (∀ pkg,
     PatchSet.diff S other !! pkg =
     match S !! pkg, other !! pkg with
     | Some p, Some o => new_entry (Patch.diff p o)
     | Some p, None => new_entry (reverse p)
     | None, Some o => new_entry o
     | None, None => None
     end)
  ∧ dom (PatchSet.diff S other) ⊆ dom S ∪ dom other.
Proof.
  split; [apply lookup_diff|].
  intros pkg [q Hq]%elem_of_dom. rewrite lookup_diff in Hq.
  apply elem_of_union. rewrite !elem_of_dom.
  destruct (S !! pkg); [by left|]. destruct (other !! pkg); [by right|done].
Qed.

(** Without a whitelist, applying the simplified patch set gives every
    package of the database the tags that applying the patch set
    itself gives it, provided the patches have disjoint sets; the
    packages that the database does not have are left out, while the
    patch set itself would create them. *)
Theorem simplified_same_effect (has_package : TagDB.t → string → bool)
    (tags_of_package : TagDB.t → string → gset string)
    (S : PatchSet.t) (tagdb : TagDB.t) (wl : option (gset string)) :
  (∀ pkg, has_package tagdb pkg = true →
          tags_of_package tagdb pkg = TagDB.tags_of tagdb pkg) →
  (∀ pkg p, S !! pkg = Some p → disjoint_patch p) →
  Patch.truthy wl = false →
  ∀ pkg,
    TagDB.tags_of
      (PatchSet.apply_to
         (PatchSet.simplified has_package tags_of_package S tagdb wl) tagdb)
      pkg
    = if has_package tagdb pkg
      then TagDB.tags_of (PatchSet.apply_to S tagdb) pkg
      else TagDB.tags_of tagdb pkg.
Proof.
  intros Htags Hdisj Hwl pkg.
  rewrite !tags_of_apply_to, lookup_simplified.
  destruct (has_package tagdb pkg) eqn:Hhas.
  - destruct (S !! pkg) as [p|] eqn:Hp; [|done]. simpl.
    rewrite (Htags pkg Hhas).
    apply simplified_same_tags; [done|]. by eapply Hdisj.
  - by destruct (S !! pkg).
Qed.

Lemma simplified_same_effect_witness :
  let S : PatchSet.t :=
    {["vzdump" := Patch.mk {["admin::backup"; "role::program"]} ∅]} in
  let db := TagDB.mk {["vzdump" := {["admin::backup"]}]} ∅ in
  TagDB.tags_of
    (PatchSet.apply_to
       (PatchSet.simplified TagDB.has_package TagDB.tags_of_package S db None)
       db) "vzdump"
  = {["admin::backup"; "role::program"]}.
Proof.
  intros S db.
  rewrite (simplified_same_effect TagDB.has_package TagDB.tags_of_package
             S db None).
  - by vm_compute.
  - done.
  - intros pkg p Hp. unfold S in Hp.
    destruct (decide (pkg = "vzdump")) as [->|Hne].
    + rewrite lookup_singleton_eq in Hp. injection Hp as <-. by_decide.
    + by rewrite lookup_singleton_ne in Hp.
  - done.
Defined.

(** An empty whitelist does not filter: [if tag_whitelist:] is false
    for the empty set as it is for [None]. *)
Theorem empty_whitelist_is_no_whitelist {DB : Type}
    (has_package : DB → string → bool)
    (tags_of_package : DB → string → gset string)
    (S : PatchSet.t) (tagdb : DB) :
  (∀ p tags, Patch.simplified p tags (Some ∅) = Patch.simplified p tags None)
  ∧ PatchSet.simplified has_package tags_of_package S tagdb (Some ∅)
    = PatchSet.simplified has_package tags_of_package S tagdb None.
Proof.
  assert (Hp : ∀ p tags,
    Patch.simplified p tags (Some ∅) = Patch.simplified p tags None).
  { intros p tags.
    assert (Patch.truthy (Some (∅ : gset string)) = false) as Ht.
    { unfold Patch.truthy. by rewrite bool_decide_true. }
    unfold Patch.simplified, Patch.simplified_outcome. by rewrite Ht. }
  split; [exact Hp|].
  apply map_eq; intros pkg. rewrite !lookup_simplified.
  destruct (S !! pkg) as [p|]; [|done]. simpl.
  destruct (has_package tagdb pkg); [|done]. apply Hp.
Qed.

(** ** Merging into a patch *)


(** The order of two merges matters. *)
Example add_does_not_commute :
  Patch.add ∅ {["x"]} (Patch.add {["x"]} ∅ Patch.new) = Patch.mk ∅ {["x"]}
  ∧ Patch.add {["x"]} ∅ (Patch.add ∅ {["x"]} Patch.new) = Patch.mk {["x"]} ∅.
Proof. split; by vm_compute. Qed.

(** ** PatchSet.empty *)





(** ** Splitting what was joined *)

Lemma prefix_cons (a b : ascii) (s1 s2 : string) :
  String.prefix (String a s1) (String b s2) =
  if ascii_dec a b then String.prefix s1 s2 else false.
Proof. reflexivity. Qed.

Lemma prefix_nil (s : string) : String.prefix EmptyString s = true.
Proof. by destruct s. Qed.

Lemma prefix_sep_app (c : ascii) (b tail : string) :
  String.prefix ", " (String c b) = false →
  tail = EmptyString ∨ (∃ rest, tail = String "," rest) →
  String.prefix ", " (String c (b +:+ tail)) = false.
Proof.
  intros Hb Htail. rewrite prefix_cons in *.
  destruct (ascii_dec "," c) as [<-|]; [|done].
  destruct b as [|d b].
  - destruct Htail as [->|[rest ->]]; [done|].
    change (EmptyString +:+ String "," rest) with (String "," rest).
    rewrite prefix_cons. by destruct (ascii_dec " " ",").
  - change (String d b +:+ tail) with (String d (b +:+ tail)).
    rewrite prefix_cons in *. destruct (ascii_dec " " d); [|done].
    by rewrite prefix_nil in Hb.
Qed.

Lemma split_go_not_nil (sep : string) (k : nat) (s : string) :
  Str.split_go sep k s ≠ [].
Proof.
  revert k. induction s as [|c s IH]; intros k; [done|].
  cbn [Str.split_go]. destruct k as [|k]; [|apply IH].
  destruct (String.prefix sep (String c s)); [done|].
  by destruct (Str.split_go sep 0 s).
Qed.

(** A piece without the separator, followed by nothing or by the
    separator, is cut off as it is. *)
Lemma split_go_piece (b tail : string) :
  Str.contains ", " b = false →
  tail = EmptyString ∨ (∃ rest, tail = String "," rest) →
  Str.split_go ", " 0 (b +:+ tail) =
  match Str.split_go ", " 0 tail with
  | piece :: more => (b +:+ piece) :: more
  | [] => [b]
  end.
Proof.
  intros Hb Htail. induction b as [|c b IH].
  - change (EmptyString +:+ tail) with tail.
    destruct (Str.split_go ", " 0 tail) eqn:E; [|done].
    by apply split_go_not_nil in E.
  - simpl in Hb. apply orb_false_iff in Hb as [Hpre Hb].
    change (String c b +:+ tail) with (String c (b +:+ tail)).
    cbn [Str.split_go]. rewrite (prefix_sep_app c b tail Hpre Htail).
    rewrite (IH Hb). by destruct (Str.split_go ", " 0 tail).
Qed.

Lemma string_app_nil_r (s : string) : s +:+ EmptyString = s.
Proof.
  induction s as [|c s IH]; [done|].
  change (String c s +:+ EmptyString) with (String c (s +:+ EmptyString)).
  by rewrite IH.
Qed.

(** Splitting at [", "] the pieces that were joined with it gives the
    pieces back, when there is a piece and no piece holds the
    separator. *)
Lemma split_join (bits : list string) :
  bits ≠ [] →
  Forall (λ b, Str.contains ", " b = false) bits →
  Str.split ", " (Str.join ", " bits) = bits.
Proof.
  unfold Str.split, Str.join.
  induction bits as [|x [|y rest] IH]; intros Hne Hall; [done|..].
  - apply Forall_cons in Hall as [Hx _]. simpl.
    rewrite <- (string_app_nil_r x) at 1.
    rewrite split_go_piece by (done || by left). simpl.
    by rewrite string_app_nil_r.
  - apply Forall_cons in Hall as [Hx Hall].
    change (String.concat ", " (x :: y :: rest))
      with (x +:+ String "," (String " " (String.concat ", " (y :: rest)))).
    rewrite split_go_piece by (done || right; eauto).
    cbn [Str.split_go]. rewrite prefix_cons.
    destruct (ascii_dec "," ",") as [_|]; [|done].
    rewrite prefix_cons. destruct (ascii_dec " " " ") as [_|]; [|done].
    rewrite prefix_nil. cbn [String.length Nat.sub Str.split_go].
    rewrite string_app_nil_r. f_equal. by apply IH.
Qed.

(** ** Writing a patch and parsing it back *)

Lemma sorted_nil (s : gset string) : Str.sorted s = [] → s = ∅.
Proof.
  intros He. apply elem_of_equiv_empty_L; intros x Hx.
  destruct (sorted_spec s) as (_ & _ & Hin). apply Hin in Hx.
  rewrite He in Hx. by apply elem_of_nil in Hx.
Qed.

(** The tokens [Patch.write] joins. *)
Lemma write_tokens (p : Patch.t) :
  Patch.write p =
  Str.join ", " ((String "-" <$> Str.sorted (Patch.removed p))
                 ++ (String "+" <$> Str.sorted (Patch.added p))).
Proof. reflexivity. Qed.

Lemma elem_of_write_tokens (p : Patch.t) (sign : ascii) (tag : string) :
  String sign tag ∈ (String "-" <$> Str.sorted (Patch.removed p))
                    ++ (String "+" <$> Str.sorted (Patch.added p))
  ↔ (sign = "-"%char ∧ tag ∈ Patch.removed p)
    ∨ (sign = "+"%char ∧ tag ∈ Patch.added p).
Proof.
  destruct (sorted_spec (Patch.removed p)) as (_ & _ & Hr).
  destruct (sorted_spec (Patch.added p)) as (_ & _ & Ha).
  rewrite elem_of_app, !list_elem_of_fmap. split.
  - intros [(t & [= -> ->] & Hin)|(t & [= -> ->] & Hin)].
    + left. split; [done|]. by apply Hr.
    + right. split; [done|]. by apply Ha.
  - intros [[-> Hin]|[-> Hin]].
    + left. exists tag. split; [done|]. by apply Hr.
    + right. exists tag. split; [done|]. by apply Ha.
Qed.

(** A patch that is not empty and whose tags do not hold [", "] is
    parsed back from the text [Patch.write] writes for it. *)
Theorem parse_write_round_trip (p : Patch.t) :
  Patch.empty p = false →
  (∀ tag, tag ∈ Patch.added p ∪ Patch.removed p →
          Str.contains ", " tag = false) →
  Patch.init (Some (Patch.write p)) [] = Ok p.
Proof.
  intros Hne Htags. unfold Patch.init.
  rewrite parse_result, write_tokens, split_join.
  - rewrite decide_False.
    + f_equal. unfold parsed, Patch.new. destruct p as [a r]; simpl.
      f_equal; apply set_eq; intros tag;
        rewrite elem_of_union, elem_of_signed_tags,
          (elem_of_write_tokens (Patch.mk a r)); simpl;
        set_solver.
    + intros [Hin _]. apply elem_of_app in Hin.
      rewrite !list_elem_of_fmap in Hin.
      by destruct Hin as [(t & [=] & _)|(t & [=] & _)].
  - intros Hnil. apply app_eq_nil in Hnil as [Hr Ha].
    apply fmap_nil_inv in Hr. apply fmap_nil_inv in Ha.
    apply sorted_nil in Hr. apply sorted_nil in Ha.
    apply patch_empty_false in Hne. tauto.
  - destruct (sorted_spec (Patch.removed p)) as (_ & _ & Hr).
    destruct (sorted_spec (Patch.added p)) as (_ & _ & Ha).
    apply Forall_app. split; apply Forall_fmap, Forall_forall;
      intros t Ht; unfold compose; cbn [Str.contains];
      rewrite prefix_cons.
    + destruct (ascii_dec "," "-"); [done|]. cbn [orb].
      apply Htags. apply Hr in Ht. set_solver.
    + destruct (ascii_dec "," "+"); [done|]. cbn [orb].
      apply Htags. apply Ha in Ht. set_solver.
Qed.

Lemma parse_write_round_trip_witness :
  Patch.init
    (Some (Patch.write
             (Patch.mk {["role::program"; "devel::lang:c"]}
                       {["special::not-yet-tagged"]}))) []
  = Ok (Patch.mk {["role::program"; "devel::lang:c"]}
                 {["special::not-yet-tagged"]}).
Proof.
  apply parse_write_round_trip.
  - by vm_compute.
  - intros tag Hin.
    assert (tag ∈ ["role::program"; "devel::lang:c";
                   "special::not-yet-tagged"]) as Hl by set_solver.
    apply list_elem_of_In in Hl. simpl in Hl.
    destruct Hl as [<-|[<-|[<-|[]]]]; by vm_compute.
Defined.

(** [Patch.parse] fails exactly when some token of the text is empty
    and the blacklist does not hold the empty tag, and then with the
    [IndexError] of [t[0]]; the empty text, which is what
    [Patch.write] writes for the empty patch, is such a text. *)
Theorem parse_fails_iff_empty_token (text : string) (bl : list string)
    (p : Patch.t) :
  (∀ e, Patch.parse text bl p = Raise e
        ↔ e = IndexError "string index out of range"
          ∧ EmptyString ∈ Str.split ", " text ∧ EmptyString ∉ bl)
  ∧ Patch.parse (Patch.write Patch.new) [] p
    = Raise (IndexError "string index out of range").
Proof.
  split; [|by vm_compute].
  intros e. rewrite parse_result. unfold has_bad_token.
  case_decide as Hbad; split.
  - by intros [= <-].
  - by intros [-> _].
  - done.
  - intros [_ H]. tauto.
Qed.

(** ** The registry of tag checkers *)











(** ** What the engine yields *)

(** [run] yields, check by check, one pair for every violation of the
    check. *)
Lemma run_cons (c : checker) (checks : list checker) (tags : list string) :
  CheckEngine.run (c :: checks) tags =
  ((λ res, (c, res)) <$> check_tags c tags) ++ CheckEngine.run checks tags.
Proof.
  unfold CheckEngine.run. rewrite bind_cons.
  assert (∀ results : list data,
            (results ≫= λ res, [(c, res)]) = (λ res, (c, res)) <$> results)
    as ->; [|done].
  induction results as [|r results IH]; [done|].
  by rewrite bind_cons, fmap_cons, IH.
Qed.

Lemma length_run (checks : list checker) (tags : list string) :
  Forall (λ c, length (check_tags c tags) ≤ 1) checks →
  length (CheckEngine.run checks tags) ≤ length checks.
Proof.
  induction 1 as [|c checks Hc _ IH]; [done|].
  rewrite run_cons, length_app, length_fmap. simpl. lia.
Qed.

Lemma module_checks_at_most_one (tags : list string) :
  Forall (λ c, length (check_tags c tags) ≤ 1) CheckEngine.module_checkers.
Proof.
  unfold CheckEngine.module_checkers.
  repeat apply Forall_cons_2; [..|apply Forall_nil_2];
    cbn [check_tags].
  - unfold HasRoleTagcheck.check_tags.
    destruct (negb _); cbn [length]; lia.
  - unfold HasUIToolkitTagcheck.check_tags.
    destruct (existsb _ _); [cbn [length]; lia|].
    destruct (HasUIToolkitTagcheck.has_iface tags); cbn [length]; lia.
  - unfold IsReviewedTagcheck.check_tags.
    destruct (bool_decide _); cbn [length]; lia.
  - unfold HasImplementedInTagcheck.check_tags.
    destruct (HasImplementedInTagcheck.scan tags None) as [[?|]|];
      cbn [length]; lia.
  - unfold HasDevelLangTagcheck.check_tags.
    destruct (HasDevelLangTagcheck.is_devlib tags); [|cbn [length]; lia].
    destruct (existsb _ _); cbn [length]; lia.
  - rewrite length_fmap. unfold HasEquivsTagcheck.check_tags.
    destruct (_ && _); [cbn [length]; lia|].
    destruct (_ && _); cbn [length]; lia.
  - unfold HasGameTagcheck.check_tags.
    destruct (negb _); [cbn [length]; lia|].
    destruct (existsb _ _); cbn [length]; lia.
  - unfold DebugSymbolsTagcheck.check_tags.
    destruct (negb _); [cbn [length]; lia|].
    destruct (existsb _ _); cbn [length]; lia.
  - unfold ShlibsTagcheck.check_tags.
    destruct (negb _); [cbn [length]; lia|].
    destruct (List.filter _ _); cbn [length]; lia.
Qed.

(** No check of checks.py yields more than one violation for a tag
    collection, so that a run of the nine checks yields at most nine
    pairs, in the order of the checks. *)
Theorem run_at_most_one_per_check (tags : list string) :
  Forall (λ c, length (check_tags c tags) ≤ 1) CheckEngine.module_checkers
  ∧ length (CheckEngine.run CheckEngine.module_checkers tags) ≤ 9
  ∧ ∀ c res, (c, res) ∈ CheckEngine.run CheckEngine.module_checkers tags →
             c ∈ CheckEngine.module_checkers ∧ check_tags c tags = [res].
Proof.
  pose proof (module_checks_at_most_one tags) as Hone.
  split; [exact Hone|]. split; [exact (length_run _ _ Hone)|].
  revert Hone. generalize CheckEngine.module_checkers as checks.
  induction checks as [|c' checks IH]; intros Hone c res Hin.
  - by apply elem_of_nil in Hin.
  - apply Forall_cons in Hone as [Hc' Hone].
    rewrite run_cons in Hin.
    apply elem_of_app in Hin as [Hin|Hin].
    + apply list_elem_of_fmap in Hin as (r & [= -> ->] & Hr).
      split; [by left|].
      destruct (check_tags c' tags) as [|r' [|? ?]]; simpl in Hc';
        [by apply elem_of_nil in Hr| |lia].
      by apply list_elem_of_singleton in Hr as ->.
    + destruct (IH Hone c res Hin) as [? ?]. split; [by right|done].
Qed.

(** ** What the checks report, and what repairs it *)

(** Adding the tag that the equivalence check reports as missing
    makes the check pass. *)
Theorem has_equivs_fix (tags : gset string) (d : gmap string string)
    (miss : string) :
  d ∈ HasEquivsTagcheck.check_tags tags →
  d !! "miss" = Some miss →
  HasEquivsTagcheck.check_tags
    (Patch.apply_tags (Patch.mk {[miss]} ∅) tags) = [].
Proof.
  unfold HasEquivsTagcheck.check_tags, Patch.apply_tags; simpl.
  destruct (decide ("role::devel-lib" ∈ tags)) as [Hr|Hr];
    destruct (decide ("devel::library" ∈ tags)) as [Hl|Hl];
    rewrite ?(bool_decide_true _ Hr), ?(bool_decide_false _ Hr),
      ?(bool_decide_true _ Hl), ?(bool_decide_false _ Hl); simpl;
    intros Hd; try (by apply elem_of_nil in Hd);
    apply list_elem_of_singleton in Hd as ->;
    rewrite lookup_insert_ne, lookup_singleton_eq by done;
    intros [= <-];
    rewrite !bool_decide_true by set_solver; done.
Qed.

Lemma has_equivs_fix_witness :
  HasEquivsTagcheck.check_tags
    (Patch.apply_tags (Patch.mk {["devel::library"]} ∅)
       {["role::devel-lib"; "devel::lang:c"]}) = [].
Proof.
  apply (has_equivs_fix {["role::devel-lib"; "devel::lang:c"]}
           {[ "has" := "role::devel-lib"; "miss" := "devel::library" ]}).
  - apply (bool_decide_unpack _). by vm_compute.
  - by vm_compute.
Defined.

Lemma elem_of_list_filter_bool (f : string → bool) (l : list string)
    (t : string) :
  t ∈ List.filter f l ↔ t ∈ l ∧ f t = true.
Proof. rewrite !list_elem_of_In. apply filter_In. Qed.

Lemma list_filter_bool_nil (f : string → bool) (l : list string) :
  List.filter f l = [] ↔ ∀ t, t ∈ l → f t = false.
Proof.
  split.
  - intros He t Hin. destruct (f t) eqn:Hf; [|done].
    assert (t ∈ List.filter f l) as Ht by by apply elem_of_list_filter_bool.
    rewrite He in Ht. by apply elem_of_nil in Ht.
  - intros Hall. destruct (List.filter f l) as [|t rest] eqn:He; [done|].
    assert (t ∈ List.filter f l) as Ht by (rewrite He; left).
    apply elem_of_list_filter_bool in Ht as [Hin Hf].
    rewrite (Hall t Hin) in Hf. done.
Qed.

(** The shared-library check passes exactly when the collection has
    no [role::shared-lib] or no tag besides the allowed ones;
    otherwise it reports the other tags, in iteration order, and the
    collection without the reported tags passes the check. *)
Theorem shlibs_reports_extras (tags : list string) :
  (ShlibsTagcheck.check_tags tags = []
   ↔ "role::shared-lib" ∉ tags
     ∨ ∀ t, t ∈ tags → ShlibsTagcheck.is_extra t = false)
  ∧ ∀ d, d ∈ ShlibsTagcheck.check_tags tags →
      ∃ extras,
        d = {[ "t" := VList extras ]}
        ∧ extras = List.filter ShlibsTagcheck.is_extra tags
        ∧ (∀ t, t ∈ extras ↔ t ∈ tags ∧ ShlibsTagcheck.is_extra t = true)
        ∧ extras ≠ []
        ∧ ShlibsTagcheck.check_tags (filter (λ t, t ∉ extras) tags) = [].
Proof.
  unfold ShlibsTagcheck.check_tags at 1 2. split.
  - destruct (decide ("role::shared-lib" ∈ tags)) as [Hin|Hnin].
    + rewrite (bool_decide_true _ Hin). cbn [negb].
      rewrite <- list_filter_bool_nil.
      destruct (List.filter ShlibsTagcheck.is_extra tags); split; try done.
      * by right.
      * by intros [?|?].
    + rewrite (bool_decide_false _ Hnin). cbn [negb]. split; [by left|done].
  - intros d Hd. destruct (negb _); [by apply elem_of_nil in Hd|].
    destruct (List.filter ShlibsTagcheck.is_extra tags) as [|t0 rest] eqn:He;
      [by apply elem_of_nil in Hd|].
    apply list_elem_of_singleton in Hd as ->.
    exists (t0 :: rest). rewrite <- He.
    split; [done|]. split; [done|].
    split; [intros t; apply elem_of_list_filter_bool|].
    split; [by rewrite He|].
    unfold ShlibsTagcheck.check_tags. destruct (negb _); [done|].
    assert (List.filter ShlibsTagcheck.is_extra
              (filter (λ t, t ∉ List.filter ShlibsTagcheck.is_extra tags) tags)
            = []) as ->; [|done].
    apply list_filter_bool_nil. intros t [Hnot Hin]%list_elem_of_filter.
    destruct (ShlibsTagcheck.is_extra t) eqn:Hx; [|done].
    exfalso. apply Hnot. by apply elem_of_list_filter_bool.
Qed.

(** The scenario of the specification: [admin::kernel] is reported
    for a shared library. *)
Example shlibs_reports_admin_kernel :
  ShlibsTagcheck.check_tags ["role::shared-lib"; "admin::kernel"]
  = [ {[ "t" := VList ["admin::kernel"] ]} ].
Proof. reflexivity. Qed.

Lemma re_role_not_implemented_in (t role : string) :
  HasImplementedInTagcheck.re_role t = Some role →
  String.prefix "implemented-in::" t = false.
Proof.
  unfold HasImplementedInTagcheck.re_role. intros [Hin Hb]%find_some.
  apply orb_true_iff in Hb as [Hb|Hb]; apply bool_decide_eq_true in Hb;
    subst t; unfold HasImplementedInTagcheck.roles in Hin; simpl in Hin;
    destruct Hin as [<-|[<-|[<-|[<-|[<-|[]]]]]]; reflexivity.
Qed.

(** The loop of the check: it returns from inside exactly when some
    tag starts with [implemented-in::]; otherwise [is_sw] ends as the
    role of a tag of the collection, or as it started when no tag
    names a role. *)
Lemma scan_outcome (tags : list string) (acc : option string) :
  match HasImplementedInTagcheck.scan tags acc with
  | None => ∃ t, t ∈ tags ∧ String.prefix "implemented-in::" t = true
  | Some r =>
      (∀ t, t ∈ tags → String.prefix "implemented-in::" t = false)
      ∧ ((r = acc
          ∧ ∀ t, t ∈ tags → HasImplementedInTagcheck.re_role t = None)
         ∨ ∃ t role, t ∈ tags
                     ∧ HasImplementedInTagcheck.re_role t = Some role
                     ∧ r = Some role)
  end.
Proof.
  revert acc. induction tags as [|t tags IH]; intros acc;
    cbn [HasImplementedInTagcheck.scan].
  - split; [by intros t ?%elem_of_nil|]. left.
    split; [done|]. by intros t ?%elem_of_nil.
  - destruct (HasImplementedInTagcheck.re_role t) as [role|] eqn:Hrole.
    + specialize (IH (Some role)).
      destruct (HasImplementedInTagcheck.scan tags (Some role)) as [r|].
      * destruct IH as [Hno Hr]. split.
        -- intros t' [->|Hin]%elem_of_cons; [|by apply Hno].
           by eapply re_role_not_implemented_in.
        -- right. destruct Hr as [[-> _]|(t' & role' & Hin & Hre & ->)].
           ++ exists t, role. split; [by left|done].
           ++ exists t', role'. split; [by right|done].
      * destruct IH as (t' & Hin & Hpre). exists t'. split; [by right|done].
    + destruct (String.prefix "implemented-in::" t) eqn:Hpre.
      * exists t. split; [by left|done].
      * specialize (IH acc).
        destruct (HasImplementedInTagcheck.scan tags acc) as [r|].
        -- destruct IH as [Hno Hr]. split.
           ++ by intros t' [->|Hin]%elem_of_cons; [|apply Hno].
           ++ destruct Hr as [[-> Hnone]|(t' & role' & Hin & Hre & ->)].
              ** left. split; [done|].
                 by intros t' [->|Hin]%elem_of_cons; [|apply Hnone].
              ** right. exists t', role'. split; [by right|done].
        -- destruct IH as (t' & Hin & Hp). exists t'. split; [by right|done].
Qed.

(** The implemented-in check fires exactly when some tag names one of
    the five software roles and no tag starts with
    [implemented-in::]; it then reports the role of a tag of the
    collection.  Whether it fires does not depend on the order in
    which the collection is iterated. *)
Theorem implemented_in_fires_iff (tags : list string) :
  (HasImplementedInTagcheck.check_tags tags ≠ []
   ↔ (∃ t, t ∈ tags ∧ is_Some (HasImplementedInTagcheck.re_role t))
     ∧ ∀ t, t ∈ tags → String.prefix "implemented-in::" t = false)
  ∧ (∀ d, d ∈ HasImplementedInTagcheck.check_tags tags →
          ∃ t role, t ∈ tags
                    ∧ HasImplementedInTagcheck.re_role t = Some role
                    ∧ d = {[ "found" := VStr role ]})
  ∧ ∀ tags', tags ≡ₚ tags' →
      (HasImplementedInTagcheck.check_tags tags = []
       ↔ HasImplementedInTagcheck.check_tags tags' = []).
Proof.
  assert (Hiff : ∀ ts,
    HasImplementedInTagcheck.check_tags ts ≠ []
    ↔ (∃ t, t ∈ ts ∧ is_Some (HasImplementedInTagcheck.re_role t))
      ∧ ∀ t, t ∈ ts → String.prefix "implemented-in::" t = false).
  { intros ts. unfold HasImplementedInTagcheck.check_tags.
    pose proof (scan_outcome ts None) as Hs.
    destruct (HasImplementedInTagcheck.scan ts None) as [[role|]|].
    - destruct Hs as [Hno [[[=] _]|(t & role' & Hin & Hre & _)]].
      split; [|done]. intros _. split; [|done]. exists t. by rewrite Hre.
    - destruct Hs as [Hno [[_ Hnone]|(t & role' & _ & _ & [=])]].
      split; [done|]. intros [(t & Hin & Hsome) _].
      rewrite (Hnone t Hin) in Hsome. by destruct Hsome.
    - destruct Hs as (t & Hin & Hpre). split; [done|].
      intros [_ Hno]. rewrite (Hno t Hin) in Hpre. done. }
  split; [apply Hiff|]. split.
  - intros d. unfold HasImplementedInTagcheck.check_tags.
    pose proof (scan_outcome tags None) as Hs.
    destruct (HasImplementedInTagcheck.scan tags None) as [[role|]|];
      try (by intros ?%elem_of_nil).
    intros ->%list_elem_of_singleton.
    destruct Hs as [_ [[[=] _]|(t & role' & Hin & Hre & [= ->])]]. eauto.
  - intros tags' Hperm.
    assert (Hnot : ∀ ts, HasImplementedInTagcheck.check_tags ts = []
                         ↔ ¬ HasImplementedInTagcheck.check_tags ts ≠ []).
    { intros ts.
      destruct (HasImplementedInTagcheck.check_tags ts) as [|d l].
      - split; [intros _ Hn; by apply Hn|done].
      - split; [done|]. intros Hn. exfalso. by apply Hn. }
    rewrite (Hnot tags), (Hnot tags'), !Hiff.
    assert (Hmem : ∀ t, t ∈ tags ↔ t ∈ tags') by (intros t; by rewrite Hperm).
    split; intros Hn [(t & Hin & Hs) Hall]; apply Hn;
      (split; [exists t; split; [by apply Hmem|done]|]);
      intros t' Hin'; apply Hall; by apply Hmem.
Qed.

(** Which role is reported does depend on the order. *)
Example implemented_in_found_depends_on_order :
  HasImplementedInTagcheck.check_tags ["role::program"; "role::source"]
  = [ {[ "found" := VStr "source" ]} ]
  ∧ HasImplementedInTagcheck.check_tags ["role::source"; "role::program"]
    = [ {[ "found" := VStr "program" ]} ].
Proof. split; reflexivity. Qed.

(** ** When the other checks fire *)

Lemma existsb_prefix_false (p : string) (tags : list string) :
  existsb (String.prefix p) tags = false
  ↔ ∀ t, t ∈ tags → String.prefix p t = false.
Proof.
  rewrite <- not_true_iff_false, existsb_exists. split.
  - intros Hno t Hin. destruct (String.prefix p t) eqn:Hp; [|done].
    exfalso. apply Hno. exists t. by rewrite <- list_elem_of_In.
  - intros Hall (t & Hin & Hp). apply list_elem_of_In in Hin.
    rewrite (Hall t Hin) in Hp. done.
Qed.

(** The conditions under which the checks for a role, a UI toolkit,
    a review, a development language, a game tag and debugging
    symbols yield their violation.  None depends on the order in
    which the collection is iterated. *)
Theorem checks_fire_iff (tags : list string) :
  (HasRoleTagcheck.check_tags tags ≠ []
   ↔ ∀ t, t ∈ tags → String.prefix "role::" t = false)
  ∧ (HasUIToolkitTagcheck.check_tags tags ≠ []
     ↔ (∀ t, t ∈ tags → String.prefix "uitoolkit::" t = false)
       ∧ ("interface::x11" ∈ tags ∨ "interface::3d" ∈ tags))
  ∧ (IsReviewedTagcheck.check_tags tags ≠ []
     ↔ "special::not-yet-tagged" ∈ tags)
  ∧ (HasDevelLangTagcheck.check_tags tags ≠ []
     ↔ ("role::devel-lib" ∈ tags ∨ "devel::library" ∈ tags)
       ∧ ∀ t, t ∈ tags → String.prefix "devel::lang:" t = false)
  ∧ (HasGameTagcheck.check_tags tags ≠ []
     ↔ "use::gameplaying" ∈ tags
       ∧ ∀ t, t ∈ tags → String.prefix "game::" t = false)
  ∧ (DebugSymbolsTagcheck.check_tags tags ≠ []
     ↔ "role::debug-symbols" ∈ tags
       ∧ ∃ t, t ∈ tags ∧ t ≠ "role::debug-symbols" ∧ t ≠ "role::dummy").
Proof.
  split; [|split; [|split; [|split; [|split]]]].
  - unfold HasRoleTagcheck.check_tags. rewrite <- existsb_prefix_false.
    by destruct (existsb _ tags).
  - unfold HasUIToolkitTagcheck.check_tags, HasUIToolkitTagcheck.has_iface.
    rewrite <- existsb_prefix_false. cbn [List.find].
    destruct (existsb _ tags); [naive_solver|].
    destruct (decide ("interface::x11" ∈ tags)) as [Hx|Hx];
      destruct (decide ("interface::3d" ∈ tags)) as [H3|H3];
      rewrite ?(bool_decide_true _ Hx), ?(bool_decide_false _ Hx),
        ?(bool_decide_true _ H3), ?(bool_decide_false _ H3);
      cbv beta iota; naive_solver.
  - unfold IsReviewedTagcheck.check_tags. case_bool_decide; naive_solver.
  - unfold HasDevelLangTagcheck.check_tags, HasDevelLangTagcheck.is_devlib.
    rewrite <- existsb_prefix_false. cbn [List.find].
    destruct (decide ("role::devel-lib" ∈ tags)) as [Hr|Hr];
      destruct (decide ("devel::library" ∈ tags)) as [Hl|Hl];
      rewrite ?(bool_decide_true _ Hr), ?(bool_decide_false _ Hr),
        ?(bool_decide_true _ Hl), ?(bool_decide_false _ Hl);
      destruct (existsb _ tags); cbv beta iota; naive_solver.
  - unfold HasGameTagcheck.check_tags. rewrite <- existsb_prefix_false.
    case_bool_decide; cbn [negb]; destruct (existsb _ tags); naive_solver.
  - unfold DebugSymbolsTagcheck.check_tags.
    case_bool_decide as Hd; cbn [negb]; [|naive_solver].
    destruct (existsb _ tags) eqn:He.
    + apply existsb_exists in He as (t & Hin & Ht).
      apply negb_true_iff, bool_decide_eq_false in Ht.
      split; [|done]. intros _. split; [done|]. exists t.
      split; [by apply list_elem_of_In|]. set_solver.
    + split; [done|]. intros [_ (t & Hin & Hne1 & Hne2)]. exfalso.
      apply not_true_iff_false in He. apply He, existsb_exists.
      exists t. split; [by apply list_elem_of_In|].
      apply negb_true_iff, bool_decide_eq_false. set_solver.
Qed.

(** ** The patch set of the rules *)

Lemma make_patches_concat (rules : list (list Autodebtag.triple))
    (wl : gset string) (S : PatchSet.t) :
  foldl (λ patchset r, foldl (Autodebtag.merge_triple wl) patchset r) S rules
  = foldl (Autodebtag.merge_triple wl) S (concat rules).
Proof.
  revert S. induction rules as [|r rules IH]; intros S; [done|].
  cbn [foldl concat]. by rewrite foldl_app, IH.
Qed.

Lemma truthy_false (s : gset string) : Autodebtag.truthy s = false ↔ s = ∅.
Proof.
  unfold Autodebtag.truthy. case_bool_decide; naive_solver.
Qed.

(** One triple changes the entry of its package only, and only when
    the package is whitelisted and the triple brings a tag. *)
Lemma lookup_merge_triple (wl : gset string) (S : PatchSet.t)
    (pkg : string) (a r : gset string) (pkg' : string) :
  Autodebtag.merge_triple wl S (pkg, a, r) !! pkg' =
  if decide (pkg = pkg' ∧ pkg ∈ wl ∧ ¬ (a = ∅ ∧ r = ∅))
  then add_entry a r (S !! pkg)
  else S !! pkg'.
Proof.
  unfold Autodebtag.merge_triple.
  destruct (decide (pkg ∈ wl)) as [Hwl|Hwl].
  - rewrite (bool_decide_true _ Hwl). cbn [negb].
    destruct (Autodebtag.truthy a || Autodebtag.truthy r) eqn:Ht.
    + rewrite lookup_add_entry.
      apply orb_true_iff in Ht.
      destruct (decide (pkg = pkg')) as [<-|Hne].
      * rewrite decide_True; [done|]. split; [done|]. split; [done|].
        intros [-> ->]. by destruct Ht as [Ht|Ht]; vm_compute in Ht.
      * rewrite decide_False; [done|]. by intros [? _].
    + apply orb_false_iff in Ht as [Ha%truthy_false Hr%truthy_false].
      rewrite decide_False; [done|]. intros (_ & _ & Hn). by apply Hn.
  - rewrite (bool_decide_false _ Hwl). cbn [negb].
    rewrite decide_False; [done|]. by intros (_ & ? & _).
Qed.

(** Every entry of the patch set that [make_patches] returns belongs
    to a whitelisted package and is not empty; when no triple of the
    rules has a tag in both its sets, the two sets of every entry are
    disjoint. *)
Theorem make_patches_entries (rules : list (list Autodebtag.triple))
    (wl : gset string) :
  (∀ pkg p, Autodebtag.make_patches rules wl !! pkg = Some p →
            pkg ∈ wl ∧ Patch.empty p = false)
  ∧ ((∀ pkg a r, (pkg, a, r) ∈ concat rules → a ## r) →
     ∀ pkg p, Autodebtag.make_patches rules wl !! pkg = Some p →
              disjoint_patch p).
Proof.
  unfold Autodebtag.make_patches. rewrite make_patches_concat.
  generalize (concat rules) as triples. intros triples.
  assert (Hinv : ∀ (Q : Patch.t → Prop) (l : list Autodebtag.triple)
                   (S : PatchSet.t),
    (∀ p a r, Q p → Q (Patch.add a r p)) →
    (∀ pkg a r, (pkg, a, r) ∈ l → Patch.empty (Patch.mk a r) = false →
                Q (Patch.mk a r)) →
    (∀ pkg p, S !! pkg = Some p → pkg ∈ wl ∧ Patch.empty p = false ∧ Q p) →
    ∀ pkg p, foldl (Autodebtag.merge_triple wl) S l !! pkg = Some p →
             pkg ∈ wl ∧ Patch.empty p = false ∧ Q p).
  { intros Q l. induction l as [|[[pkg0 a] r] l IH]; intros S Hadd Hnew HS;
      [exact HS|].
    cbn [foldl]. apply IH; [done|..].
    - intros pkg' a' r' Hin. apply (Hnew pkg'). by right.
    - intros pkg p. rewrite lookup_merge_triple.
      case_decide as Hc; [|apply HS]. destruct Hc as (<- & Hwl & _).
      unfold add_entry, new_entry.
      destruct (S !! pkg0) as [p0|] eqn:Hp0.
      + intros [= <-]. destruct (HS pkg0 p0 Hp0) as (_ & Hne & HQ).
        split; [done|]. split; [by apply add_nonempty|by apply Hadd].
      + destruct (Patch.empty (Patch.mk a r)) eqn:He; [done|].
        intros [= <-]. split; [done|]. split; [done|].
        apply (Hnew pkg0); [by left|done]. }
  split.
  - intros pkg p Hp.
    destruct (Hinv (λ _, True) triples ∅) with (pkg := pkg) (p := p)
      as (? & ? & _);
      try done; intros pkg' p'; by rewrite lookup_empty.
  - intros Hdisj pkg p Hp.
    destruct (Hinv disjoint_patch triples ∅) with (pkg := pkg) (p := p)
      as (_ & _ & ?);
      try done;
      first [ intros pkg' p'; by rewrite lookup_empty
            | intros p0 a r; by apply add_disjoint
            | intros pkg' a r Hin _; unfold disjoint_patch; simpl;
              by eapply Hdisj ].
Qed.

Lemma make_patches_entries_witness :
  disjoint_patch (Patch.mk {["role::devel-lib"; "devel::library"]} ∅).
Proof.
  destruct (make_patches_entries
              [[("libfoo-dev", {["role::devel-lib"; "devel::library"]}, ∅)]]
              {["libfoo-dev"]}) as [_ Hdisj].
  apply (Hdisj) with (pkg := "libfoo-dev").
  - intros pkg a r Hin. cbn [concat app] in Hin.
    apply list_elem_of_singleton in Hin as [= -> -> ->]. by_decide.
  - by vm_compute.
Defined.

Lemma added_for_cons (pkg pkg0 : string) (a r : gset string)
    (l : list Autodebtag.triple) :
  added_for pkg ((pkg0, a, r) :: l) =
  if decide (pkg0 = pkg) then a ∪ added_for pkg l else added_for pkg l.
Proof. reflexivity. Qed.

Lemma added_for_perm (pkg : string) (l l' : list Autodebtag.triple) :
  l ≡ₚ l' → added_for pkg l = added_for pkg l'.
Proof.
  induction 1 as [|[[p a] r] l l' _ IH|[[p1 a1] r1] [[p2 a2] r2] l
                 |l1 l2 l3 _ IH1 _ IH2].
  - done.
  - rewrite !added_for_cons. by rewrite IH.
  - rewrite !added_for_cons. repeat case_decide; set_solver.
  - by rewrite IH1.
Qed.

(** The loop over triples that remove nothing, started on a patch set
    whose patches remove nothing. *)
Lemma lookup_fold_additions (wl : gset string)
    (l : list Autodebtag.triple) (S : PatchSet.t) (pkg : string) :
  Forall (λ t : Autodebtag.triple, t.2 = ∅) l →
  (∀ pkg p, S !! pkg = Some p →
            Patch.removed p = ∅ ∧ Patch.empty p = false) →
  foldl (Autodebtag.merge_triple wl) S l !! pkg =
  if decide (pkg ∈ wl)
  then new_entry
         (Patch.mk (from_option Patch.added ∅ (S !! pkg) ∪ added_for pkg l) ∅)
  else S !! pkg.
Proof.
  intros Hl. revert S.
  induction Hl as [|[[pkg0 a] r] l Hr _ IH]; intros S HS.
  - cbn [foldl]. unfold added_for; cbn [foldr].
    destruct (S !! pkg) as [[a0 r0]|] eqn:Hp.
    + destruct (HS pkg _ Hp) as [Hr0 Hne]. simpl in Hr0. subst r0.
      case_decide; [|done]. simpl.
      assert (a0 ∪ ∅ = a0) as -> by set_solver.
      unfold new_entry. by rewrite Hne.
    + simpl. case_decide; [|done].
      assert ((∅ : gset string) ∪ ∅ = ∅) as -> by set_solver. done.
  - simpl in Hr. subst r. cbn [foldl]. rewrite IH.
    + rewrite added_for_cons, lookup_merge_triple.
      destruct (decide (pkg ∈ wl)) as [Hwl|Hwl].
      * destruct (decide (pkg0 = pkg)) as [->|Hne].
        -- destruct (decide (a = ∅)) as [->|Ha].
           ++ rewrite decide_False by naive_solver.
              do 2 f_equal. set_solver.
           ++ rewrite decide_True by naive_solver.
              unfold add_entry. destruct (S !! pkg) as [[a0 r0]|] eqn:Hp.
              ** destruct (HS pkg _ Hp) as [Hr0 _]. simpl in Hr0. subst r0.
                 simpl. do 2 f_equal. unfold Patch.add; simpl. set_solver.
              ** unfold new_entry at 2.
                 assert (Patch.empty (Patch.mk a ∅) = false) as ->.
                 { apply patch_empty_false. by left. }
                 simpl. do 2 f_equal. set_solver.
        -- by rewrite decide_False by naive_solver.
      * rewrite decide_False by naive_solver. done.
    + intros pkg' p'. rewrite lookup_merge_triple.
      destruct (decide (pkg0 = pkg' ∧ _)) as [Hc|Hc]; [|apply HS].
      destruct Hc as (<- & _ & Hn). clear IH.
      unfold add_entry, new_entry.
      destruct (S !! pkg0) as [p0|] eqn:Hp0.
      * intros [= <-]. destruct (HS pkg0 p0 Hp0) as [Hr0 Hne].
        split; [|by apply add_nonempty].
        unfold Patch.add; simpl. rewrite Hr0. set_solver.
      * destruct (Patch.empty (Patch.mk a ∅)) eqn:He; [done|].
        by intros [= <-].
Qed.

(** When no rule removes a tag, which is the case of every rule of
    autotag.py, the patch of a whitelisted package adds the union of
    the tags that the triples for that package add and removes
    nothing; a package gets no entry when it is not whitelisted or
    when that union is empty.  The patch set is then the same in
    whatever order the rules run and yield their triples. *)
Theorem make_patches_additions (rules : list (list Autodebtag.triple))
    (wl : gset string) :
  Forall (λ t : Autodebtag.triple, t.2 = ∅) (concat rules) →
  (∀ pkg,
     Autodebtag.make_patches rules wl !! pkg =
     if decide (pkg ∈ wl)
     then new_entry (Patch.mk (added_for pkg (concat rules)) ∅)
     else None)
  ∧ ∀ rules', concat rules ≡ₚ concat rules' →
      Autodebtag.make_patches rules' wl = Autodebtag.make_patches rules wl.
Proof.
  intros Hrem.
  assert (Hlookup : ∀ rs pkg,
    Forall (λ t : Autodebtag.triple, t.2 = ∅) (concat rs) →
    Autodebtag.make_patches rs wl !! pkg =
    if decide (pkg ∈ wl)
    then new_entry (Patch.mk (added_for pkg (concat rs)) ∅)
    else None).
  { intros rs pkg Hrs. unfold Autodebtag.make_patches.
    rewrite make_patches_concat, lookup_fold_additions; [|done|].
    - rewrite lookup_empty. simpl.
      by assert (∅ ∪ added_for pkg (concat rs) = added_for pkg (concat rs))
        as -> by set_solver.
    - intros pkg' p'. by rewrite lookup_empty. }
  split; [intros pkg; by apply Hlookup|].
  intros rules' Hperm. apply map_eq; intros pkg.
  rewrite !Hlookup; [|done|by rewrite <- Hperm].
  by rewrite (added_for_perm pkg _ _ Hperm).
Qed.

Lemma make_patches_additions_witness :
  let rules : list (list Autodebtag.triple) :=
    [ [("libfoo-perl", {["devel::lang:perl"; "devel::library"]}, ∅);
       ("other", {["role::program"]}, ∅)];
      [("libfoo-perl", {["implemented-in::perl"]}, ∅)] ] in
  Autodebtag.make_patches rules {["libfoo-perl"]} !! "libfoo-perl"
  = Some (Patch.mk {["devel::lang:perl"; "devel::library";
                     "implemented-in::perl"]} ∅)
  ∧ Autodebtag.make_patches rules {["libfoo-perl"]} !! "other" = None.
Proof.
  intros rules.
  destruct (make_patches_additions rules {["libfoo-perl"]}) as [Hlookup _].
  - unfold rules. cbn [concat app]. repeat constructor.
  - rewrite !Hlookup. split; by vm_compute.
Defined.

(** ** Writing a patch file and reading it back *)

Lemma string_app_cons (c : ascii) (s t : string) :
  String c s +:+ t = String c (s +:+ t).
Proof. reflexivity. Qed.

Lemma string_app_assoc (s t u : string) : (s +:+ t) +:+ u = s +:+ t +:+ u.
Proof.
  induction s as [|c s IH]; [done|]. by rewrite !string_app_cons, IH.
Qed.

Lemma lstrip_id (s : string) :
  match s with
  | EmptyString => True
  | String c _ => Ascii.is_space c = false
  end →
  Str.lstrip s = s.
Proof. destruct s as [|c s]; [done|]. simpl. by intros ->. Qed.

Lemma rstrip_id (s : string) : ends_clean s = true → Str.rstrip s = s.
Proof.
  induction s as [|c s IH]; [done|]. intros Hs.
  cbn [Str.rstrip]. destruct s as [|d s].
  - simpl in Hs. apply negb_true_iff in Hs. by rewrite Hs.
  - rewrite IH by done. done.
Qed.

Lemma rstrip_newline (s : string) :
  Str.rstrip (s +:+ String Re.newline "") = Str.rstrip s.
Proof.
  induction s as [|c s IH]; [done|].
  rewrite string_app_cons. cbn [Str.rstrip]. by rewrite IH.
Qed.

Lemma ends_clean_app (s t : string) :
  t ≠ EmptyString → ends_clean (s +:+ t) = ends_clean t.
Proof.
  intros Ht. induction s as [|c s IH]; [done|].
  rewrite string_app_cons. cbn [ends_clean].
  destruct (s +:+ t) as [|d u] eqn:E; [|done].
  destruct s; [by destruct t|done].
Qed.

Lemma has_space_ends_clean (s : string) :
  has_space s = false → ends_clean s = true.
Proof.
  induction s as [|c s IH]; [done|]. simpl.
  intros [Hc Hs]%orb_false_iff. destruct s; [by rewrite Hc|by apply IH].
Qed.

Lemma has_space_no_sep (c : ascii) (s : string) :
  has_space s = false → Str.contains (String c " ") s = false.
Proof.
  induction s as [|d s IH]; [done|]. simpl.
  intros [Hd Hs]%orb_false_iff. rewrite (IH Hs), orb_false_r.
  destruct (ascii_dec c d) as [_|]; [|done].
  destruct s as [|x s]; [done|]. simpl in Hs.
  apply orb_false_iff in Hs as [Hx _].
  rewrite prefix_cons. destruct (ascii_dec " " x) as [<-|]; [|done].
  by vm_compute in Hx.
Qed.

Lemma prefix_pair_app (c1 c : ascii) (b rest : string) :
  c1 ≠ " "%char →
  String.prefix (String c1 " ") (String c b) = false →
  String.prefix (String c1 " ") (String c (b +:+ String c1 rest)) = false.
Proof.
  intros Hc1 Hb. rewrite prefix_cons in *.
  destruct (ascii_dec c1 c) as [_|]; [|done].
  destruct b as [|d b].
  - change (EmptyString +:+ String c1 rest) with (String c1 rest).
    rewrite prefix_cons. by destruct (ascii_dec " " c1) as [<-|].
  - rewrite string_app_cons, prefix_cons in *.
    destruct (ascii_dec " " d); [|done]. by rewrite prefix_nil in Hb.
Qed.

(** A name without [": "], followed by [": "], is cut at that
    separator. *)
Lemma split1_piece (b body : string) :
  Str.contains ": " b = false →
  Str.split1 ": " (b +:+ String ":" (String " " body)) = [b; body].
Proof.
  intros Hb. induction b as [|c b IH].
  - change (EmptyString +:+ String ":" (String " " body))
      with (String ":" (String " " body)).
    cbn [Str.split1]. rewrite !prefix_cons.
    destruct (ascii_dec ":" ":") as [_|]; [|done].
    destruct (ascii_dec " " " ") as [_|]; [|done].
    by rewrite prefix_nil.
  - simpl in Hb. apply orb_false_iff in Hb as [Hpre Hb].
    rewrite string_app_cons. cbn [Str.split1].
    rewrite (prefix_pair_app ":" c b (String " " body)) by done.
    by rewrite (IH Hb).
Qed.

Lemma join_ends_clean (bits : list string) :
  bits ≠ [] →
  Forall (λ b, b ≠ EmptyString ∧ ends_clean b = true) bits →
  Str.join ", " bits ≠ EmptyString
  ∧ ends_clean (Str.join ", " bits) = true.
Proof.
  unfold Str.join.
  induction bits as [|x [|y rest] IH]; intros Hne Hall; [done|..].
  - by apply Forall_cons in Hall as [[? ?] _].
  - apply Forall_cons in Hall as [[Hx Hxc] Hall].
    destruct (IH ltac:(done) Hall) as [Hj Hjc].
    change (String.concat ", " (x :: y :: rest))
      with (x +:+ String "," (String " " (String.concat ", " (y :: rest)))).
    split; [by destruct x|].
    rewrite ends_clean_app by done.
    change (String "," (String " " (String.concat ", " (y :: rest))))
      with (", " +:+ String.concat ", " (y :: rest)).
    by rewrite ends_clean_app.
Qed.

(** The tokens of a patch whose tags hold no whitespace. *)
Lemma write_tokens_clean (p : Patch.t) :
  (∀ tag, tag ∈ Patch.added p ∪ Patch.removed p → has_space tag = false) →
  Forall (λ b, b ≠ EmptyString ∧ ends_clean b = true
               ∧ Str.contains ", " b = false)
    ((String "-" <$> Str.sorted (Patch.removed p))
     ++ (String "+" <$> Str.sorted (Patch.added p))).
Proof.
  intros Htags. apply Forall_forall. intros b Hb.
  assert (∃ sign tag, b = String sign tag
                      ∧ (sign = "-" ∨ sign = "+")%char
                      ∧ has_space tag = false) as (sign & tag & -> & Hs & Ht).
  { destruct (sorted_spec (Patch.removed p)) as (_ & _ & Hr).
    destruct (sorted_spec (Patch.added p)) as (_ & _ & Ha).
    apply elem_of_app in Hb as [Hb|Hb];
      apply list_elem_of_fmap in Hb as (tag & -> & Hin);
      [exists "-"%char, tag|exists "+"%char, tag];
      (split; [done|]); (split; [tauto|]); apply Htags;
      [apply Hr in Hin|apply Ha in Hin]; set_solver. }
  split; [done|]. split.
  - apply has_space_ends_clean. simpl. rewrite Ht.
    by destruct Hs as [-> | ->].
  - apply has_space_no_sep. simpl. rewrite Ht.
    by destruct Hs as [-> | ->].
Qed.

Lemma write_tokens_not_nil (p : Patch.t) :
  Patch.empty p = false →
  (String "-" <$> Str.sorted (Patch.removed p))
  ++ (String "+" <$> Str.sorted (Patch.added p)) ≠ [].
Proof.
  intros Hne Hnil. apply app_eq_nil in Hnil as [Hr Ha].
  apply fmap_nil_inv in Hr. apply fmap_nil_inv in Ha.
  apply sorted_nil in Hr. apply sorted_nil in Ha.
  apply patch_empty_false in Hne. tauto.
Qed.

Lemma write_ends_clean (pkg : string) (p : Patch.t) :
  writable pkg p →
  Patch.write p ≠ EmptyString ∧ ends_clean (Patch.write p) = true.
Proof.
  intros (_ & Hne & Htags). rewrite write_tokens.
  apply join_ends_clean; [by apply write_tokens_not_nil|].
  eapply Forall_impl; [by apply write_tokens_clean|].
  simpl. tauto.
Qed.

(** Stripping a written line removes the newline and nothing else. *)
Lemma strip_write_entry (pkg : string) (p : Patch.t) :
  writable pkg p →
  Str.strip (PatchSet.write_entry pkg p) = pkg +:+ ": " +:+ Patch.write p.
Proof.
  intros Hw. destruct (write_ends_clean _ _ Hw) as [Hne Hclean].
  destruct Hw as (Hpkg & _ & _).
  unfold Str.strip, PatchSet.write_entry. rewrite lstrip_id.
  - rewrite <- !string_app_assoc, rstrip_newline.
    rewrite rstrip_id; [by rewrite string_app_assoc|].
    by rewrite ends_clean_app.
  - destruct pkg as [|c pkg]; [done|].
    simpl in Hpkg. apply orb_false_iff in Hpkg as [Hc _].
    by rewrite string_app_cons.
Qed.

Lemma entry_of_write_entry (pkg : string) (p : Patch.t) :
  writable pkg p →
  entry_of (PatchSet.write_entry pkg p) = Some (pkg, Patch.write p).
Proof.
  intros Hw. unfold entry_of. rewrite strip_write_entry by done.
  destruct Hw as (Hpkg & _ & _).
  change (": " +:+ Patch.write p)
    with (String ":" (String " " (Patch.write p))).
  by rewrite split1_piece by by apply has_space_no_sep.
Qed.

Lemma parsed_write_tokens (p : Patch.t) :
  parsed [] ((String "-" <$> Str.sorted (Patch.removed p))
             ++ (String "+" <$> Str.sorted (Patch.added p))) Patch.new = p.
Proof.
  unfold parsed, Patch.new. destruct p as [a r]; simpl.
  f_equal; apply set_eq; intros tag;
    rewrite elem_of_union, elem_of_signed_tags,
      (elem_of_write_tokens (Patch.mk a r)); simpl;
    set_solver.
Qed.

(** Reading a written line into a patch set that has no entry for its
    package adds the patch as it was. *)
Lemma read_line_write_entry (S : PatchSet.t) (pkg : string) (p : Patch.t) :
  writable pkg p →
  S !! pkg = None →
  PatchSet.read_line [] S (PatchSet.write_entry pkg p) = Ok (<[pkg := p]> S).
Proof.
  intros Hw Hnone.
  rewrite (read_line_entry _ _ _ _ _ (entry_of_write_entry _ _ Hw)).
  destruct Hw as (_ & Hne & Htags).
  rewrite write_tokens, split_join.
  - rewrite decide_False.
    + unfold with_entry. by rewrite Hnone, parsed_write_tokens, Hne.
    + intros [Hin _]. apply elem_of_app in Hin.
      rewrite !list_elem_of_fmap in Hin.
      by destruct Hin as [(t & [=] & _)|(t & [=] & _)].
  - by apply write_tokens_not_nil.
  - eapply Forall_impl; [by apply write_tokens_clean|].
    simpl. tauto.
Qed.

(** Reading the lines written for entries of distinct packages adds
    each entry. *)
Lemma read_fd_write_items (items : list (string * Patch.t))
    (S : PatchSet.t) :
  NoDup items.*1 →
  Forall (λ item, writable item.1 item.2) items →
  (∀ pkg, pkg ∈ items.*1 → S !! pkg = None) →
  PatchSet.read_fd (PatchSet.write_items items) [] S
  = Ok (list_to_map items ∪ S).
Proof.
  unfold PatchSet.read_fd, PatchSet.write_items.
  revert S. induction items as [|[pkg p] items IH]; intros S Hnd Hw Hnew.
  - simpl. by rewrite (left_id_L ∅ (∪)).
  - rewrite fmap_cons in Hnd. apply NoDup_cons in Hnd as [Hpkg Hnd].
    apply Forall_cons in Hw as [Hp Hw].
    rewrite fmap_cons. cbn [for_each fst snd].
    rewrite read_line_write_entry;
      [|done|apply Hnew; rewrite fmap_cons; left].
    cbn [mbind result_bind]. rewrite IH; [|done|done|].
    + f_equal. rewrite list_to_map_cons. cbn [fst snd].
      rewrite <- insert_union_l. symmetry. apply insert_union_r.
      by apply not_elem_of_list_to_map_1.
    + intros pkg' Hin. rewrite lookup_insert_ne by set_solver.
      apply Hnew. rewrite fmap_cons. by right.
Qed.

(** X23.  A patch set written with [PatchSet.write_fd] and read back
    with [PatchSet.read_fd] is the patch set that was written, in
    whatever order the dict yields its items, when no patch is empty and
    neither a package name nor a tag holds whitespace. *)
Theorem write_read_round_trip (S : PatchSet.t)
    (items : list (string * Patch.t)) :
  items ≡ₚ map_to_list S →
  map_Forall writable S →
  PatchSet.init (PatchSet.write_items items) [] = Ok S.
Proof.
  intros Hperm Hw. unfold PatchSet.init.
  rewrite read_fd_write_items.
  - rewrite (right_id_L ∅ (∪)). f_equal.
    rewrite (list_to_map_proper items (map_to_list S)); [|..|done].
    + apply list_to_map_to_list.
    + rewrite Hperm. apply NoDup_fst_map_to_list.
  - rewrite Hperm. apply NoDup_fst_map_to_list.
  - apply Forall_forall. intros [pkg p] Hin. rewrite Hperm in Hin.
    apply elem_of_map_to_list in Hin. by apply Hw.
  - intros pkg _. apply lookup_empty.
Qed.

Lemma write_read_round_trip_witness :
  let S : PatchSet.t :=
    {[ "mutt" := Patch.mk {[ "role::program" ]} {[ "role::plugin" ]} ]} in
  PatchSet.write_fd S
  = ["mutt: -role::plugin, +role::program" +:+ String Re.newline EmptyString]
  ∧ PatchSet.init (PatchSet.write_fd S) [] = Ok S.
Proof.
  intros S. split.
  - unfold PatchSet.write_fd, S. by rewrite map_to_list_singleton.
  - apply write_read_round_trip; [done|].
    apply map_Forall_singleton. repeat split.
    intros tag Htag. cbn [Patch.added Patch.removed] in Htag.
    apply elem_of_union in Htag as [Htag|Htag];
      apply elem_of_singleton in Htag; by subst tag.
Defined.

(** An entry with an empty patch is written as a bare package name,
    which [PatchSet.read_fd] skips: it is not read back. *)
Example write_read_drops_empty_patch :
  let S : PatchSet.t := {[ "mutt" := Patch.new ]} in
  PatchSet.init (PatchSet.write_fd S) [] = Ok ∅.
Proof.
  intros S. unfold PatchSet.write_fd, S. rewrite map_to_list_singleton.
  by vm_compute.
Qed.
